(** * PHI detection and enforcement (functions/index.js of the NICU shift tracker)

    A shallow embedding of the Cloud Functions file: the table of regular
    expressions [PHI_PATTERNS], the text detector [detectPHI], the recursive
    document scanner [scanForPHI], the two Firestore triggers
    [validateBabyData] / [validateBabyDataUpdate] and the callable
    [generateShiftSummary], followed by the properties established about them. *)

From Stdlib Require Import Ascii String DecimalString.
From Stdlib Require Import List NArith ZArith PeanoNat Bool Lia Sorted.
Import ListNotations.

Set Implicit Arguments.

(* ================================================================== *)
(** ** JavaScript strings *)
(* ================================================================== *)

(** A JavaScript string is a sequence of UTF-16 code units. *)
Definition char := N.
Definition text := list char.

(** ASCII literal of the source as a sequence of code units. *)
Definition u (s : string) : text := map N_of_ascii (list_ascii_of_string s).

Definition char_eqb (a b : char) : bool := N.eqb a b.

Fixpoint text_eqb (a b : text) : bool :=
  match a, b with
  | [], [] => true
  | x :: a', y :: b' => char_eqb x y && text_eqb a' b'
  | _, _ => false
  end.

Definition in_range (lo hi c : char) : bool := (N.leb lo c && N.leb c hi)%bool.

Definition is_upper (c : char) : bool := in_range 65%N 90%N c.
Definition is_lower (c : char) : bool := in_range 97%N 122%N c.
Definition is_digit (c : char) : bool := in_range 48%N 57%N c.

(** [\w] without the unicode flag: [A-Za-z0-9_]. *)
Definition is_word (c : char) : bool :=
  (is_upper c || is_lower c || is_digit c || char_eqb c 95%N)%bool.

(** [\s]: WhiteSpace and LineTerminator of ECMAScript. *)
Definition is_space (c : char) : bool :=
  (in_range 9%N 13%N c || char_eqb c 32%N || char_eqb c 160%N
   || char_eqb c 5760%N || in_range 8192%N 8202%N c || char_eqb c 8232%N
   || char_eqb c 8233%N || char_eqb c 8239%N || char_eqb c 8287%N
   || char_eqb c 12288%N || char_eqb c 65279%N)%bool.

(** Case mapping on the ASCII letters.  [String.prototype.toLowerCase] is
    only applied by the source to matches of [fullName], which consist of
    ASCII letters and white space, and the case-insensitive comparison of the
    regular expressions only involves ASCII pattern characters, which a
    code unit above 127 never canonicalizes to. *)
Definition to_upper (c : char) : char := if is_lower c then (c - 32)%N else c.
Definition to_lower (c : char) : char := if is_upper c then (c + 32)%N else c.

Definition toLowerCase (s : text) : text := map to_lower s.

(** [s.startsWith(w)] *)
Fixpoint startsWith (s w : text) : bool :=
  match w, s with
  | [], _ => true
  | x :: w', y :: s' => char_eqb x y && startsWith s' w'
  | _ :: _, [] => false
  end.

(** [s.includes(w)] *)
Fixpoint includes (s w : text) : bool :=
  startsWith s w ||
  match s with
  | [] => false
  | _ :: s' => includes s' w
  end.

(** [s.substring(0, n)] *)
Definition substring0 (n : nat) (s : text) : text := firstn n s.

(** [s.substring(i, j)] for [i <= j]. *)
Definition substring (i j : nat) (s : text) : text := firstn (j - i) (skipn i s).

(** [String(n)] for an array index. *)
Definition index_to_text (n : nat) : text :=
  u (NilZero.string_of_uint (Nat.to_uint n)).

(* ================================================================== *)
(** ** Regular expressions *)
(* ================================================================== *)

(** The fragment of the ECMAScript pattern language used by [PHI_PATTERNS]:
    every quantifier of the table applies to a single-character atom. *)

Inductive citem : Type :=
| ISingle (c : char)          (* a character of a class *)
| IRange (lo hi : char)       (* lo-hi *)
| ISpace.                     (* \s inside a class *)

Inductive catom : Type :=
| CLit (c : char)             (* a pattern character *)
| CSet (items : list citem)   (* [...] *)
| CDigit                      (* \d *)
| CSpace.                     (* \s *)

Inductive regex : Type :=
| REmpty
| RAtom (a : catom)
| RRep (a : catom) (min : nat) (max : option nat)   (* a{min,max}, greedy *)
| RWordB                                            (* \b *)
| RSeq (r1 r2 : regex)
| RAlt (r1 r2 : regex)                              (* r1|r2 *)
| RGroup (r : regex)                                (* ( r ) *)
| RNegLook (r : regex).                             (* (?! r ) *)

Record RegExp : Type := mkRegExp {
  source : regex;
  global : bool;
  ignoreCase : bool
}.

(** A position inside the subject string: the code units before it, last
    one first, and the code units after it. *)
Record pos : Type := mkPos { before : text; after : text }.

Definition endIndex (p : pos) : nat := length (before p).

Definition citem_test (it : citem) (c : char) : bool :=
  match it with
  | ISingle x => char_eqb x c
  | IRange lo hi => in_range lo hi c
  | ISpace => is_space c
  end.

(** The characters that canonicalize like [c] under the [i] flag. *)
Definition variants (ic : bool) (c : char) : list char :=
  if ic then [c; to_upper c; to_lower c] else [c].

Definition catom_test (ic : bool) (a : catom) (c : char) : bool :=
  match a with
  | CLit x => existsb (char_eqb x) (variants ic c)
  | CSet items => existsb (fun it => existsb (citem_test it) (variants ic c)) items
  | CDigit => is_digit c
  | CSpace => is_space c
  end.

(** Greedy repetition of a one-character test: the results are listed in
    the order in which a backtracking matcher tries them, longest first. *)
Fixpoint rep (test : char -> bool) (min : nat) (max : option nat)
    (bef aft : text) {struct aft} : list pos :=
  let stop := match min with O => [mkPos bef aft] | S _ => [] end in
  match max with
  | Some O => stop
  | _ =>
    match aft with
    | c :: aft' =>
      if test c
      then rep test (Nat.pred min) (option_map Nat.pred max) (c :: bef) aft' ++ stop
      else stop
    | [] => stop
    end
  end.

Definition word_before (p : pos) : bool :=
  match before p with c :: _ => is_word c | [] => false end.
Definition word_after (p : pos) : bool :=
  match after p with c :: _ => is_word c | [] => false end.

(** The backtracking matcher as a list of successes: [matcher ic r p] lists
    the positions at which a match of [r] started at [p] can end, in the
    priority order of the ECMAScript semantics; its head is the match the
    engine reports. *)
Fixpoint matcher (ic : bool) (r : regex) (p : pos) : list pos :=
  match r with
  | REmpty => [p]
  | RAtom a =>
    match after p with
    | c :: aft => if catom_test ic a c then [mkPos (c :: before p) aft] else []
    | [] => []
    end
  | RRep a min max => rep (catom_test ic a) min max (before p) (after p)
  | RWordB => if xorb (word_before p) (word_after p) then [p] else []
  | RSeq r1 r2 => flat_map (matcher ic r2) (matcher ic r1 p)
  | RAlt r1 r2 => matcher ic r1 p ++ matcher ic r2 p
  | RGroup r1 => matcher ic r1 p
  | RNegLook r1 => match matcher ic r1 p with [] => [p] | _ :: _ => [] end
  end.

(** First index at or after the position at which the pattern matches. *)
Fixpoint search (ic : bool) (r : regex) (bef aft : text) {struct aft}
    : option (pos * pos) :=
  match matcher ic r (mkPos bef aft) with
  | e :: _ => Some (mkPos bef aft, e)
  | [] =>
    match aft with
    | c :: aft' => search ic r (c :: bef) aft'
    | [] => None
    end
  end.

(** RegExpBuiltinExec: the match found from [lastIndex] on (from 0 when the
    expression is not global), if any, and the new value of [lastIndex]. *)
Definition RegExpBuiltinExec (R : RegExp) (str : text) (lastIndex : nat)
    : option text * nat :=
  let start := if global R then lastIndex else 0 in
  if length str <? start then (None, if global R then 0 else lastIndex)
  else
    match search (ignoreCase R) (source R)
                 (rev (firstn start str)) (skipn start str) with
    | None => (None, if global R then 0 else lastIndex)
    | Some (s, e) =>
      (Some (substring (endIndex s) (endIndex e) str),
       if global R then endIndex e else lastIndex)
    end.

(** The loop of RegExp.prototype[Symbol.match] for a global expression:
    matches are collected until RegExpBuiltinExec fails; after an empty
    match [lastIndex] is advanced by one.  [None] stands for exhausted
    fuel. *)
Fixpoint match_loop (fuel : nat) (R : RegExp) (str : text) (lastIndex : nat)
    (A : list text) : option (list text * nat) :=
  match fuel with
  | O => None
  | S fuel' =>
    match RegExpBuiltinExec R str lastIndex with
    | (None, lastIndex') => Some (rev A, lastIndex')
    | (Some matchStr, lastIndex') =>
      let lastIndex'' :=
        match matchStr with [] => S lastIndex' | _ :: _ => lastIndex' end in
      match_loop fuel' R str lastIndex'' (matchStr :: A)
    end
  end.

(** [str.match(R)]: for a global [R], [lastIndex] is first reset to 0 and
    the result is [null] when there is no match, else the array of all
    matches; otherwise the result of one RegExpBuiltinExec (captures are not
    represented). *)
Definition string_match (str : text) (R : RegExp) (lastIndex : nat)
    : option (list text) * nat :=
  if global R then
    match match_loop (length str + 2) R str 0 [] with
    | Some ([], li) => (None, li)
    | Some (A, li) => (Some A, li)
    | None => (None, lastIndex)
    end
  else
    match RegExpBuiltinExec R str lastIndex with
    | (None, li) => (None, li)
    | (Some matchStr, li) => (Some [matchStr], li)
    end.

(* ================================================================== *)
(** ** PHI_PATTERNS *)
(* ================================================================== *)

Definition ch (a : ascii) : char := N_of_ascii a.

Definition lit (w : string) : regex :=
  fold_right (fun c r => RSeq (RAtom (CLit c)) r) REmpty (u w).

Definition seqs (rs : list regex) : regex := fold_right RSeq REmpty rs.

Fixpoint alts (r : regex) (rs : list regex) : regex :=
  match rs with
  | [] => r
  | r' :: rs' => RAlt r (alts r' rs')
  end.

Definition star (a : catom) : regex := RRep a 0 None.
Definition plus (a : catom) : regex := RRep a 1 None.
Definition opt (a : catom) : regex := RRep a 0 (Some 1).
Definition times (n : nat) (a : catom) : regex := RRep a n (Some n).
Definition at_least (n : nat) (a : catom) : regex := RRep a n None.
Definition between (n k : nat) (a : catom) : regex := RRep a n (Some k).

Definition upper_AZ : citem := IRange (ch "A") (ch "Z").
Definition lower_az : citem := IRange (ch "a") (ch "z").
Definition digit_09 : citem := IRange (ch "0") (ch "9").

(** The keys of [PHI_PATTERNS], in insertion order. *)
Inductive detector : Type :=
| fullName | mrn | dob | ssn | phone | personalEmail | exactDate | address.

Definition detector_eqb (a b : detector) : bool :=
  match a, b with
  | fullName, fullName | mrn, mrn | dob, dob | ssn, ssn | phone, phone
  | personalEmail, personalEmail | exactDate, exactDate
  | address, address => true
  | _, _ => false
  end.

(** /\b[A-Z][a-z]{2,}\s+[A-Z][a-z]{2,}\b/g *)
Definition fullName_re : RegExp :=
  mkRegExp
    (seqs [RWordB; RAtom (CSet [upper_AZ]); at_least 2 (CSet [lower_az]);
           plus CSpace;
           RAtom (CSet [upper_AZ]); at_least 2 (CSet [lower_az]); RWordB])
    true false.

(** /\b(MRN|mrn|#|medical\s*record)\s*:?\s*\d{6,}/gi *)
Definition mrn_re : RegExp :=
  mkRegExp
    (seqs [RWordB;
           RGroup (alts (lit "MRN")
                     [lit "mrn"; lit "#";
                      seqs [lit "medical"; star CSpace; lit "record"]]);
           star CSpace; opt (CLit (ch ":")); star CSpace; at_least 6 CDigit])
    true true.

(** /\b(DOB|dob|born|birth|birthday)\s*:?\s*\d{1,2}[\/\-]\d{1,2}[\/\-]\d{2,4}/gi *)
Definition dob_re : RegExp :=
  mkRegExp
    (seqs [RWordB;
           RGroup (alts (lit "DOB")
                     [lit "dob"; lit "born"; lit "birth"; lit "birthday"]);
           star CSpace; opt (CLit (ch ":")); star CSpace;
           between 1 2 CDigit;
           RAtom (CSet [ISingle (ch "/"); ISingle (ch "-")]);
           between 1 2 CDigit;
           RAtom (CSet [ISingle (ch "/"); ISingle (ch "-")]);
           between 2 4 CDigit])
    true true.

(** /\b\d{3}[-\s]?\d{2}[-\s]?\d{4}\b/g *)
Definition ssn_re : RegExp :=
  mkRegExp
    (seqs [RWordB; times 3 CDigit;
           opt (CSet [ISingle (ch "-"); ISpace]);
           times 2 CDigit;
           opt (CSet [ISingle (ch "-"); ISpace]);
           times 4 CDigit; RWordB])
    true false.

(** /\b\d{3}[-\.\s]?\d{3}[-\.\s]?\d{4}\b/g *)
Definition phone_re : RegExp :=
  mkRegExp
    (seqs [RWordB; times 3 CDigit;
           opt (CSet [ISingle (ch "-"); ISingle (ch "."); ISpace]);
           times 3 CDigit;
           opt (CSet [ISingle (ch "-"); ISingle (ch "."); ISpace]);
           times 4 CDigit; RWordB])
    true false.

(** The institutional prefixes of the look-ahead of [personalEmail]. *)
Definition institutional : regex :=
  RGroup (alts (lit "hospital")
            [lit "healthsystem"; lit "medical"; lit "nicu"]).

(** /\b[a-zA-Z0-9._%+-]+@(?!(hospital|healthsystem|medical|nicu))[a-zA-Z0-9.-]+\.[a-zA-Z]{2,}\b/gi *)
Definition personalEmail_re : RegExp :=
  mkRegExp
    (seqs [RWordB;
           plus (CSet [lower_az; upper_AZ; digit_09; ISingle (ch ".");
                       ISingle (ch "_"); ISingle (ch "%"); ISingle (ch "+");
                       ISingle (ch "-")]);
           RAtom (CLit (ch "@"));
           RNegLook institutional;
           plus (CSet [lower_az; upper_AZ; digit_09; ISingle (ch ".");
                       ISingle (ch "-")]);
           RAtom (CLit (ch "."));
           at_least 2 (CSet [lower_az; upper_AZ]); RWordB])
    true true.

(** /\b(January|February|March|April|May|June|July|August|September|October|November|December)\s+\d{1,2},?\s+\d{4}\b/gi *)
Definition exactDate_re : RegExp :=
  mkRegExp
    (seqs [RWordB;
           RGroup (alts (lit "January")
                     [lit "February"; lit "March"; lit "April"; lit "May";
                      lit "June"; lit "July"; lit "August"; lit "September";
                      lit "October"; lit "November"; lit "December"]);
           plus CSpace; between 1 2 CDigit; opt (CLit (ch ","));
           plus CSpace; times 4 CDigit; RWordB])
    true true.

(** /\b\d+\s+[A-Z][a-z]+\s+(Street|St|Avenue|Ave|Road|Rd|Boulevard|Blvd|Lane|Ln|Drive|Dr|Court|Ct|Way)\b/gi *)
Definition address_re : RegExp :=
  mkRegExp
    (seqs [RWordB; plus CDigit; plus CSpace;
           RAtom (CSet [upper_AZ]); plus (CSet [lower_az]); plus CSpace;
           RGroup (alts (lit "Street")
                     [lit "St"; lit "Avenue"; lit "Ave"; lit "Road"; lit "Rd";
                      lit "Boulevard"; lit "Blvd"; lit "Lane"; lit "Ln";
                      lit "Drive"; lit "Dr"; lit "Court"; lit "Ct"; lit "Way"]);
           RWordB])
    true true.

(** [Object.entries(PHI_PATTERNS)] *)
Definition PHI_PATTERNS : list (detector * RegExp) :=
  [ (fullName, fullName_re); (mrn, mrn_re); (dob, dob_re); (ssn, ssn_re);
    (phone, phone_re); (personalEmail, personalEmail_re);
    (exactDate, exactDate_re); (address, address_re) ].

(** The mutable part of the table: the [lastIndex] of each of the eight
    module-level expression objects. *)
Definition regex_state : Type := detector -> nat.

Definition set_lastIndex (d : detector) (n : nat) (st : regex_state)
    : regex_state :=
  fun d' => if detector_eqb d d' then n else st d'.

(** Computations that read and write the [lastIndex] fields. *)
Definition M (A : Type) : Type := regex_state -> A * regex_state.

Definition ret {A : Type} (a : A) : M A := fun st => (a, st).

Definition bind {A B : Type} (c : M A) (k : A -> M B) : M B :=
  fun st => let (a, st') := c st in k a st'.

Notation "x <- c ;; k" := (bind c (fun x => k))
  (at level 61, c at next level, right associativity).

(** [text.match(pattern)] on the expression object of key [type]. *)
Definition text_match (str : text) (type : detector) (pattern : RegExp)
    : M (option (list text)) :=
  fun st =>
    let (matches, li) := string_match str pattern (st type) in
    (matches, set_lastIndex type li st).

(* ================================================================== *)
(** ** detectPHI *)
(* ================================================================== *)

Record violation : Type := mkViolation {
  type : detector;
  count : nat;
  sample : text
}.

(** The callback of [matches.filter] for [fullName]. *)
Definition not_medical_term (mtch : text) : bool :=
  let lower := toLowerCase mtch in
  negb (includes lower (u "room")) &&
  negb (includes lower (u "blood")) &&
  negb (includes lower (u "heart")) &&
  negb (startsWith lower (u "baby ")).

(** One iteration of the loop over the table.  [matches[0]] is defined
    whenever [matches] is not [null]: [match] never returns an empty array. *)
Definition detect_entry (str : text) (violations : list violation)
    (entry : detector * RegExp) : M (list violation) :=
  let (type, pattern) := entry in
  matches <- text_match str type pattern ;;
  ret match matches with
      | Some matches =>
        if detector_eqb type fullName then
          let filtered := filter not_medical_term matches in
          if 0 <? length filtered then
            violations ++
              [mkViolation type (length filtered)
                 (substring0 15 (hd [] filtered) ++ u "...")]
          else violations
        else
          violations ++
            [mkViolation type (length matches)
               (substring0 20 (hd [] matches) ++ u "...")]
      | None => violations
      end.

Fixpoint detect_loop (str : text) (entries : list (detector * RegExp))
    (violations : list violation) : M (list violation) :=
  match entries with
  | [] => ret violations
  | entry :: entries' =>
    violations' <- detect_entry str violations entry ;;
    detect_loop str entries' violations'
  end.

(** [detectPHI(text)] for a string argument: [None] is [null]. *)
Definition detectPHI (str : text) : M (option (list violation)) :=
  match str with
  | [] => ret None
  | _ :: _ =>
    violations <- detect_loop str PHI_PATTERNS [] ;;
    ret (if 0 <? length violations then Some violations else None)
  end.

(* ================================================================== *)
(** ** Documents and scanForPHI *)
(* ================================================================== *)

(** Firestore document data as JavaScript values.  The entries of an object
    are its own enumerable properties in the order of [Object.entries]; the
    numeric content of a number is never inspected by the scanner. *)
#[warnings="-register-all"]
Inductive value : Type :=
| VNull
| VBool (b : bool)
| VNumber (n : Z)
| VString (s : text)
| VArray (items : list value)
| VObject (entries : list (text * value)).

Record finding : Type := mkFinding {
  field : text;
  violations : list violation
}.

(** [key === 'createdAt' || key === 'updatedAt' || key === '_'] *)
Definition skipped (key : text) : bool :=
  text_eqb key (u "createdAt") || text_eqb key (u "updatedAt")
  || text_eqb key (u "_").

(** [path ? `${path}.${key}` : key] *)
Definition extend_path (path key : text) : text :=
  match path with
  | [] => key
  | _ :: _ => path ++ u "." ++ key
  end.

(** [`${currentPath}[${index}]`] *)
Definition index_path (currentPath : text) (index : nat) : text :=
  currentPath ++ u "[" ++ index_to_text index ++ u "]".

(** The string branch, shared by fields and array elements: [detectPHI] and
    the push of a finding when its result is not [null]. *)
Definition scan_string (findings : list finding) (where_ : text) (s : text)
    : M (list finding) :=
  phi <- detectPHI s ;;
  ret match phi with
      | Some phi => findings ++ [mkFinding where_ phi]
      | None => findings
      end.

(** The body of the loop of [scanForPHI] for one entry [key, value], with
    [self] the recursive call. *)
Definition scan_entry (self : value -> text -> M (list finding))
    (path : text) (findings : list finding) (key : text) (v : value)
    : M (list finding) :=
  let currentPath := extend_path path key in
  if skipped key then ret findings
  else
    match v with
    | VString s => scan_string findings currentPath s
    | VArray items =>
      (fix forEach (items : list value) (index : nat)
           (findings : list finding) {struct items} : M (list finding) :=
         match items with
         | [] => ret findings
         | item :: items' =>
           findings' <-
             match item with
             | VNull | VArray _ | VObject _ =>
               sub <- self item (index_path currentPath index) ;;
               ret (findings ++ sub)
             | VString s =>
               scan_string findings (index_path currentPath index) s
             | VBool _ | VNumber _ => ret findings
             end ;;
           forEach items' (S index) findings'
         end) items 0 findings
    | VObject _ =>
      sub <- self v currentPath ;;
      ret (findings ++ sub)
    | VNull | VBool _ | VNumber _ => ret findings
    end.

(** [scanForPHI(data, path)].  [Object.entries] of an array lists its
    elements under their indices as keys. *)
Fixpoint scanForPHI (data : value) (path : text) {struct data}
    : M (list finding) :=
  match data with
  | VObject entries =>
    (fix loop (entries : list (text * value)) (findings : list finding)
         {struct entries} : M (list finding) :=
       match entries with
       | [] => ret findings
       | (key, v) :: entries' =>
         findings' <- scan_entry scanForPHI path findings key v ;;
         loop entries' findings'
       end) entries []
  | VArray items =>
    (fix loop (items : list value) (index : nat) (findings : list finding)
         {struct items} : M (list finding) :=
       match items with
       | [] => ret findings
       | v :: items' =>
         findings' <-
           scan_entry scanForPHI path findings (index_to_text index) v ;;
         loop items' (S index) findings'
       end) items 0 []
  | VNull | VBool _ | VNumber _ | VString _ => ret []
  end.

(* ================================================================== *)
(** ** Firestore as seen by one trigger invocation *)
(* ================================================================== *)

Record params : Type := mkParams {
  appId : text;
  userId : text;
  shiftId : text;
  babyId : text
}.

(** A document of the [phi_violations] collection.  The [timestamp] field
    is the [serverTimestamp()] sentinel, filled in by the server. *)
Record audit_entry : Type := mkAudit {
  audit_appId : text;
  audit_userId : text;
  audit_shiftId : text;
  audit_babyId : text;
  documentType : text;
  findings : list finding;
  action : text;
  severity : text
}.

(** The write calls a handler can issue. *)
Inductive call : Type :=
| CallAdd (entry : audit_entry)               (* collection('phi_violations').add *)
| CallDelete                                  (* snap.ref.delete() *)
| CallSet (data : value) (merge : bool).      (* change.after.ref.set(data, {merge}) *)

Inductive error : Type :=
| FirestoreError (op : call).

(** Which of the awaited writes are rejected by the store. *)
Record faults : Type := mkFaults {
  add_fails : bool;
  delete_fails : bool;
  set_fails : bool
}.

Definition no_faults : faults := mkFaults false false false.

Record world : Type := mkWorld {
  baby_doc : option value;             (* the document the trigger is bound to *)
  phi_violations : list audit_entry;   (* the audit collection *)
  issued : list call;                  (* the write calls, in the order issued *)
  patterns : regex_state               (* lastIndex of the module-level table *)
}.

Inductive result (A : Type) : Type :=
| Ok (a : A)
| Throw (e : error).
Arguments Ok {A} a.
Arguments Throw {A} e.

(** Handler computations: an awaited call that rejects ends the handler. *)
Definition IO (A : Type) : Type := world -> result A * world.

Definition io_ret {A : Type} (a : A) : IO A := fun w => (Ok a, w).

Definition io_bind {A B : Type} (c : IO A) (k : A -> IO B) : IO B :=
  fun w =>
    match c w with
    | (Ok a, w') => k a w'
    | (Throw e, w') => (Throw e, w')
    end.

Notation "x <~ c ;; k" := (io_bind c (fun x => k))
  (at level 61, c at next level, right associativity).

(** Run a computation on the pattern table inside a handler. *)
Definition with_patterns {A : Type} (c : M A) : IO A :=
  fun w =>
    let (a, st) := c (patterns w) in
    (Ok a, mkWorld (baby_doc w) (phi_violations w) (issued w) st).

Definition issue (c : call) (w : world) : world :=
  mkWorld (baby_doc w) (phi_violations w) (issued w ++ [c]) (patterns w).

(** Update of a stored map by [set(data, {merge: true})]: the fields of
    [data] are written, maps are merged field by field, every other stored
    field is kept. *)
Fixpoint upsert (key : text) (v : value) (onto : value -> value)
    (stored : list (text * value)) : list (text * value) :=
  match stored with
  | [] => [(key, v)]
  | (k, c) :: stored' =>
    if text_eqb k key then (k, onto c) :: stored'
    else (k, c) :: upsert key v onto stored'
  end.

Fixpoint merge_value (data stored : value) {struct data} : value :=
  match data, stored with
  | VObject entries, VObject stored_entries =>
    VObject
      ((fix go (entries : list (text * value))
            (acc : list (text * value)) {struct entries} :=
          match entries with
          | [] => acc
          | (key, v) :: entries' => go entries' (upsert key v (merge_value v) acc)
          end) entries stored_entries)
  | _, _ => data
  end.

(** The document after [ref.set(data, {merge})]. *)
Definition set_result (data : value) (merge : bool) (stored : option value)
    : value :=
  match merge, stored with
  | true, Some cur => merge_value data cur
  | _, _ => data
  end.

(** [await admin.firestore().collection('phi_violations').add(entry)] *)
Definition add_violation (f : faults) (entry : audit_entry) : IO unit :=
  fun w =>
    let w' := issue (CallAdd entry) w in
    if add_fails f then (Throw (FirestoreError (CallAdd entry)), w')
    else (Ok tt, mkWorld (baby_doc w') (phi_violations w' ++ [entry])
                   (issued w') (patterns w')).

(** [await snap.ref.delete()]; deleting a missing document succeeds. *)
Definition ref_delete (f : faults) : IO unit :=
  fun w =>
    let w' := issue CallDelete w in
    if delete_fails f then (Throw (FirestoreError CallDelete), w')
    else (Ok tt, mkWorld None (phi_violations w') (issued w') (patterns w')).

(** [await change.after.ref.set(data, { merge })] *)
Definition ref_set (f : faults) (data : value) (merge : bool) : IO unit :=
  fun w =>
    let w' := issue (CallSet data merge) w in
    if set_fails f then (Throw (FirestoreError (CallSet data merge)), w')
    else (Ok tt, mkWorld (Some (set_result data merge (baby_doc w')))
                   (phi_violations w') (issued w') (patterns w')).

(* ================================================================== *)
(** ** validateBabyData and validateBabyDataUpdate *)
(* ================================================================== *)

(** The object returned by a trigger: [{ status: 'approved' }],
    [{ status: 'blocked', reason, findings }] or
    [{ status: 'rolled_back', reason, findings }]. *)
Inductive response : Type :=
| approved
| blocked (reason : text) (fields : list text)
| rolled_back (reason : text) (fields : list text).

(** The [onCreate] handler: [data] is [snap.data()]. *)
Definition validateBabyData (f : faults) (data : value) (context : params)
    : IO response :=
  phiFindings <~ with_patterns (scanForPHI data []) ;;
  if 0 <? length phiFindings then
    _ <~ add_violation f
           (mkAudit (appId context) (userId context) (shiftId context)
              (babyId context) (u "baby") phiFindings (u "deleted")
              (u "high")) ;;
    _ <~ ref_delete f ;;
    io_ret (blocked (u "PHI detected") (map field phiFindings))
  else io_ret approved.

(** The [onUpdate] handler: [newData] is [change.after.data()] and
    [oldData] is [change.before.data()]. *)
Definition validateBabyDataUpdate (f : faults) (oldData newData : value)
    (context : params) : IO response :=
  phiFindings <~ with_patterns (scanForPHI newData []) ;;
  if 0 <? length phiFindings then
    _ <~ add_violation f
           (mkAudit (appId context) (userId context) (shiftId context)
              (babyId context) (u "baby") phiFindings (u "rollback")
              (u "high")) ;;
    _ <~ ref_set f oldData false ;;
    io_ret (rolled_back (u "PHI detected in update") (map field phiFindings))
  else io_ret approved.

(** The client write that fires a trigger: the store commits the new
    content of the document. *)
Definition commit (data : value) (w : world) : world :=
  mkWorld (Some data) (phi_violations w) (issued w) (patterns w).

(** A record creation followed by its [onCreate] handler. *)
Definition on_create (f : faults) (data : value) (context : params)
    (w : world) : result response * world :=
  validateBabyData f data context (commit data w).

(** A modification of the stored record [oldData] to [newData] followed by
    its [onUpdate] handler. *)
Definition on_update (f : faults) (oldData newData : value)
    (context : params) (w : world) : result response * world :=
  validateBabyDataUpdate f oldData newData context (commit newData (commit oldData w)).

(* ================================================================== *)
(** ** generateShiftSummary *)
(* ================================================================== *)

Inductive error_code : Type :=
| unauthenticated
| invalid_argument
| not_found
| internal.

(** [new functions.https.HttpsError(code, message, details)] *)
Record HttpsError : Type := mkHttpsError {
  code : error_code;
  message : text;
  details : option text
}.

(** What can be thrown inside the [try] block: an [HttpsError], or another
    error (of a Firestore call, or of an expression of the summary
    templates); both have a [message]. *)
Inductive thrown : Type :=
| ThrownHttps (e : HttpsError)
| ThrownError (msg : text).

Definition thrown_message (e : thrown) : text :=
  match e with
  | ThrownHttps e => message e
  | ThrownError msg => msg
  end.

(** How a call of the handler fails: with an [HttpsError] it throws itself,
    or with the [TypeError] of the destructuring of line 267, which is
    outside the [try] block. *)
Inductive failure : Type :=
| HttpsRejection (e : HttpsError)
| TypeErrorThrown.

(** [!v] for a destructured property; [None] is [undefined]. *)
Definition falsy (v : option value) : bool :=
  match v with
  | None | Some VNull => true
  | Some (VBool b) => negb b
  | Some (VNumber n) => Z.eqb n 0
  | Some (VString s) => match s with [] => true | _ :: _ => false end
  | Some (VArray _) | Some (VObject _) => false
  end.

(** [obj[key]]; [None] is [undefined]. *)
Fixpoint get_prop (key : text) (entries : list (text * value))
    : option value :=
  match entries with
  | [] => None
  | (k, v) :: entries' => if text_eqb k key then Some v else get_prop key entries'
  end.

(** The property [key] destructured from a payload that is not [null]: a
    payload that is not an object has no such property. *)
Definition destructured (data : value) (key : text) : option value :=
  match data with
  | VObject entries => get_prop key entries
  | VNull | VBool _ | VNumber _ | VString _ | VArray _ => None
  end.

Section Template.

(** The text of a number, [Number::toString]. *)
Variable number_text : Z -> text.

(** [`${v}`] for a value of a payload; [None] when the conversion throws a
    [TypeError]: an object with a property [toString] of its own, which is
    no function, has no primitive value.  The elements of an array are
    joined by commas, [null] giving the empty text. *)
Fixpoint template_value (v : value) : option text :=
  match v with
  | VNull => Some (u "null")
  | VBool b => Some (if b then u "true" else u "false")
  | VNumber n => Some (number_text n)
  | VString s => Some s
  | VArray items =>
    (fix join (items : list value) : option text :=
       match items with
       | [] => Some []
       | x :: items' =>
         match match x with VNull => Some [] | _ => template_value x end with
         | None => None
         | Some shown =>
           match items' with
           | [] => Some shown
           | _ :: _ =>
             match join items' with
             | None => None
             | Some others => Some (shown ++ u "," ++ others)
             end
           end
         end
       end) items
  | VObject entries =>
    match get_prop (u "toString") entries with
    | Some _ => None
    | None => Some (u "[object Object]")
    end
  end.

Definition template (v : option value) : option text :=
  match v with
  | None => Some (u "undefined")
  | Some v => template_value v
  end.

End Template.

(** The caller: [context.auth] is absent for an unauthenticated call. *)
Record call_context : Type := mkContext {
  auth : option text      (* context.auth.uid *)
}.

(** [doc(path).get()]: the error of [doc] or of [get], or the snapshot, with
    the data of the document when it exists. *)
Inductive get_outcome : Type :=
| GetError (msg : text)
| Snapshot (data : option value).

(** [collection(path).get()]: the error of [collection] or of [get], or the
    documents of the snapshot, each with its identifier. *)
Inductive query_outcome : Type :=
| QueryError (msg : text)
| QuerySnapshot (docs : list (text * value)).

(** The Firestore service as the callable meets it: the outcome of each of
    its three calls, by path; [doc_update] gives the message of the error
    when the update is rejected. *)
Record firestore : Type := mkFirestore {
  doc_get : text -> get_outcome;
  collection_get : text -> query_outcome;
  doc_update : text -> list (text * value) -> option text
}.

(** An update Firestore has applied: the path and the fields. *)
Definition write : Type := (text * list (text * value))%type.

(** [{ id: doc.id, ...doc.data() }] *)
Definition with_id (id : text) (data : value) : value :=
  match data with
  | VObject entries =>
    VObject (fold_left (fun acc kv => upsert (fst kv) (snd kv) (fun _ => snd kv) acc)
               entries [(u "id", VString id)])
  | _ => VObject [(u "id", VString id)]
  end.

(** The value the callable resolves to. *)
Record summary_response : Type := mkSummary {
  summary : text;
  timestamp : text;
  babyCount : nat
}.

Section GenerateShiftSummary.

(** The text of a number and the message of the [TypeError] of a value
    without primitive value; the statements that assemble the summary from
    the shift and its babies (lines 300 to 391), which give the text or
    throw an error with a message; the clock as [toISOString] reads it and
    the server time stamp. *)
Variable number_text : Z -> text.
Variable conversion_error : text.
Variable render : value -> list value -> text + text.
Variable now_iso : text.
Variable server_time : value.

(** The statements of the [try] block, with the updates applied. *)
Definition summary_body (fs : firestore) (appId shiftId : option value)
    (userId : text) : (summary_response + thrown) * list write :=
  match template number_text shiftId, template number_text appId with
  | Some shiftId_, Some appId_ =>
    let shiftPath :=
      u "artifacts/" ++ appId_ ++ u "/users/" ++ userId
        ++ u "/nicu_shifts/" ++ shiftId_ in
    match doc_get fs shiftPath with
    | GetError msg => (inr (ThrownError msg), [])
    | Snapshot None =>
      (inr (ThrownHttps (mkHttpsError not_found (u "Shift not found") None)),
       [])
    | Snapshot (Some shift) =>
      match collection_get fs (shiftPath ++ u "/babies") with
      | QueryError msg => (inr (ThrownError msg), [])
      | QuerySnapshot docs =>
        let babies := map (fun doc => with_id (fst doc) (snd doc)) docs in
        match render shift babies with
        | inr msg => (inr (ThrownError msg), [])
        | inl summary_ =>
          let fields :=
            [(u "cachedSummary", VString summary_);
             (u "summaryGeneratedAt", server_time)] in
          match doc_update fs shiftPath fields with
          | Some msg => (inr (ThrownError msg), [])
          | None =>
            (inl (mkSummary summary_ now_iso (length babies)),
             [(shiftPath, fields)])
          end
        end
      end
    end
  | _, _ => (inr (ThrownError conversion_error), [])
  end.

(** [generateShiftSummary(data, context)]: the value returned or the way
    the call fails, with the updates applied. *)
Definition generateShiftSummary (fs : firestore) (data : value)
    (context : call_context) : (summary_response + failure) * list write :=
  match auth context with
  | None =>
    (inr (HttpsRejection
            (mkHttpsError unauthenticated
               (u "User must be authenticated to generate summaries") None)),
     [])
  | Some userId =>
    match data with
    | VNull => (inr TypeErrorThrown, [])
    | _ =>
      let appId := destructured data (u "appId") in
      let shiftId := destructured data (u "shiftId") in
      if falsy appId || falsy shiftId then
        (inr (HttpsRejection
                (mkHttpsError invalid_argument
                   (u "appId and shiftId are required") None)), [])
      else
        match summary_body fs appId shiftId userId with
        | (inl r, writes) => (inl r, writes)
        | (inr error, writes) =>
          (inr (HttpsRejection
                  (mkHttpsError internal (u "Failed to generate shift summary")
                     (Some (thrown_message error)))), writes)
        end
    end
  end.

End GenerateShiftSummary.

(* ================================================================== *)
(** ** firebase-helpers-v2.js: the documents written for a baby *)
(* ================================================================== *)

(** [{ ...obj, [key]: v }]: the property is redefined where it stands, or
    added after the others. *)
Definition set_prop (key : text) (v : value) (entries : list (text * value))
    : list (text * value) :=
  upsert key v (fun _ => v) entries.

(** [v || d] *)
Definition or_else (v : option value) (d : value) : value :=
  match v with
  | Some x => if falsy v then d else x
  | None => d
  end.

(** The object [babyWithDefaults] of [addBaby], with [server_time] for the
    two [serverTimestamp()] fields. *)
Definition babyWithDefaults (server_time : value)
    (babyData : list (text * value)) : value :=
  VObject
    (set_prop (u "updatedAt") server_time
       (set_prop (u "createdAt") server_time
          (set_prop (u "eventLogs")
             (or_else (get_prop (u "eventLogs") babyData) (VArray []))
             (set_prop (u "touchTimeLogs")
                (or_else (get_prop (u "touchTimeLogs") babyData) (VArray []))
                (set_prop (u "reportSheet")
                   (or_else (get_prop (u "reportSheet") babyData) (VObject []))
                   babyData))))).

(** What a helper throws: [new Error(msg)], or the error of
    [collection(...)] / [doc(...)] on identifiers that do not make a valid
    reference. *)
Inductive helper_error : Type :=
| HelperError (msg : text)
| InvalidReference.

(** [addBaby(db, appId, userId, shiftId, babyData)] for an object
    [babyData]: the error thrown, or the document handed to [addDoc].  [db]
    tells whether a Firestore instance was passed and [ref_ok] whether
    [collection(...)] accepts the identifiers. *)
Definition addBaby (server_time : value) (db ref_ok : bool)
    (userId shiftId : option value) (babyData : list (text * value))
    : value + helper_error :=
  if negb db || falsy userId || falsy shiftId
  then inr (HelperError (u "Missing required parameters"))
  else if negb ref_ok then inr InvalidReference
  else inl (babyWithDefaults server_time babyData).

(** The document after [updateDoc(ref, fields)] for field names without
    dots: each named field is replaced as a whole, the others are kept. *)
Definition updateDoc_result (fields stored : list (text * value))
    : list (text * value) :=
  fold_left (fun acc kv => set_prop (fst kv) (snd kv) acc) fields stored.

(** [setReportSheet(db, appId, userId, shiftId, babyId, reportData)]: the
    error thrown, or the fields handed to [updateDoc]. *)
Definition setReportSheet (server_time : value) (db ref_ok : bool)
    (userId shiftId babyId : option value) (reportData : value)
    : list (text * value) + helper_error :=
  if negb db || falsy userId || falsy shiftId || falsy babyId
  then inr (HelperError (u "Missing required parameters"))
  else if negb ref_ok then inr InvalidReference
  else inl [(u "reportSheet", reportData); (u "updatedAt", server_time)].

(** The object without its property [key]. *)
Fixpoint remove_prop (key : text) (entries : list (text * value))
    : list (text * value) :=
  match entries with
  | [] => []
  | (k, v) :: entries' =>
    if text_eqb k key then entries' else (k, v) :: remove_prop key entries'
  end.

(* ================================================================== *)
(** * Specification-side definitions *)
(* ================================================================== *)

Unset Implicit Arguments.

(** ** Matching *)

(** [reaches p e]: [e] is [p] advanced over some code units. *)
Definition reaches (p e : pos) : Prop :=
  exists consumed : text,
    before e = rev consumed ++ before p /\ after p = consumed ++ after e.

(** The table as created at module load: every [lastIndex] is 0. *)
Definition initial_patterns : regex_state := fun _ => 0.

(** The violations one entry of the table pushes for a text. *)
Definition pushed (str : text) (entry : detector * RegExp) : list violation :=
  fst (detect_entry str [] entry initial_patterns).

(** The result of [detectPHI] on the table as created. *)
Definition detect (str : text) : option (list violation) :=
  fst (detectPHI str initial_patterns).

(** The pattern the table holds for a detector. *)
Definition pattern_of (d : detector) : RegExp :=
  match d with
  | fullName => fullName_re | mrn => mrn_re | dob => dob_re | ssn => ssn_re
  | phone => phone_re | personalEmail => personalEmail_re
  | exactDate => exactDate_re | address => address_re
  end.

(** The matches of the pattern of a detector in a text, in the order in
    which [text.match(pattern)] lists them; none when it gives [null]. *)
Definition all_matches (str : text) (d : detector) : list text :=
  match fst (string_match str (pattern_of d) 0) with
  | Some matches => matches
  | None => []
  end.

(** The matches a violation of the detector is made of: for [fullName]
    those the filter on medical terms keeps, for the others all of them. *)
Definition retained (str : text) (d : detector) : list text :=
  if detector_eqb d fullName
  then filter not_medical_term (all_matches str d)
  else all_matches str d.

(** ** Induction on documents *)

Section ValueInduction.

Variable P : value -> Prop.
Hypothesis P_null : P VNull.
Hypothesis P_bool : forall b, P (VBool b).
Hypothesis P_number : forall n, P (VNumber n).
Hypothesis P_string : forall s, P (VString s).
Hypothesis P_array : forall items, Forall P items -> P (VArray items).
Hypothesis P_object :
  forall entries, Forall (fun kv => P (snd kv)) entries -> P (VObject entries).

Fixpoint value_nested_ind (v : value) : P v :=
  match v with
  | VNull => P_null
  | VBool b => P_bool b
  | VNumber n => P_number n
  | VString s => P_string s
  | VArray items =>
    P_array items
      ((fix all (l : list value) : Forall P l :=
          match l with
          | [] => Forall_nil P
          | x :: l' => Forall_cons (P := P) x (value_nested_ind x) (all l')
          end) items)
  | VObject entries =>
    P_object entries
      ((fix all (l : list (text * value))
          : Forall (fun kv => P (snd kv)) l :=
          match l with
          | [] => Forall_nil _
          | kv :: l' =>
            Forall_cons (P := fun kv => P (snd kv)) kv
              (value_nested_ind (snd kv)) (all l')
          end) entries)
  end.

End ValueInduction.

(** ** The traversal, as specified *)

(** [flat_mapi f i l]: the concatenation of [f i x0], [f (i+1) x1], ... *)
Definition flat_mapi {A B : Type} (f : nat -> A -> list B)
    : nat -> list A -> list B :=
  fix go (i : nat) (l : list A) : list B :=
    match l with
    | [] => []
    | x :: l' => f i x ++ go (S i) l'
    end.

(** The string fields of a document as the specification describes the
    traversal: depth first, the fields of a record in order with the path
    extended by the field name, the elements of a list in order with an
    index-qualified path, nothing below a skipped key; each field is listed
    with its path and its text. *)
Definition entry_fields (self : value -> text -> list (text * text))
    (path key : text) (v : value) : list (text * text) :=
  if skipped key then []
  else
    let currentPath := extend_path path key in
    match v with
    | VString s => [(currentPath, s)]
    | VArray items =>
      flat_mapi
        (fun index item =>
           match item with
           | VString s => [(index_path currentPath index, s)]
           | VNull | VArray _ | VObject _ =>
             self item (index_path currentPath index)
           | VBool _ | VNumber _ => []
           end) 0 items
    | VObject _ => self v currentPath
    | VNull | VBool _ | VNumber _ => []
    end.

Fixpoint string_fields (data : value) (path : text) {struct data}
    : list (text * text) :=
  match data with
  | VObject entries =>
    flat_map (fun '(key, v) => entry_fields string_fields path key v) entries
  | VArray items =>
    flat_mapi
      (fun index v => entry_fields string_fields path (index_to_text index) v)
      0 items
  | VNull | VBool _ | VNumber _ | VString _ => []
  end.

(** The finding reported for a visited string field, if any. *)
Definition report (visit : text * text) : list finding :=
  match detect (snd visit) with
  | Some phi => [mkFinding (fst visit) phi]
  | None => []
  end.

(** The statement proved by induction on the document. *)
Definition scan_spec (v : value) : Prop :=
  forall path st,
    fst (scanForPHI v path st) = flat_map report (string_fields v path).

(** The string values of a document outside the skipped keys, each
    occurrence once, in document order. *)
Fixpoint strings_below (v : value) : list text :=
  match v with
  | VString s => [s]
  | VArray items => flat_map strings_below items
  | VObject entries =>
    flat_map (fun '(key, v) => if skipped key then [] else strings_below v)
      entries
  | VNull | VBool _ | VNumber _ => []
  end.

(** The statement, on the visited texts, proved by induction. *)
Definition visits_spec (v : value) : Prop :=
  forall path,
    map snd (string_fields v path) =
    match v with VString _ => [] | _ => strings_below v end.

(** The document without the fields named [createdAt], [updatedAt] or [_],
    at every depth.  Two documents with the same image differ only in such
    fields. *)
Fixpoint erase_skipped (v : value) : value :=
  match v with
  | VArray items => VArray (map erase_skipped items)
  | VObject entries =>
    VObject
      (flat_map (fun '(key, v) =>
                   if skipped key then [] else [(key, erase_skipped v)])
         entries)
  | VNull | VBool _ | VNumber _ | VString _ => v
  end.

Definition erase_spec (v : value) : Prop :=
  forall path, string_fields (erase_skipped v) path = string_fields v path.

(** ** A field inside a document *)

(** A document with one place left open: the place itself, a field of a
    record with the entries before and after it, or an element of a list
    with the elements before and after it. *)
Inductive place : Type :=
| Here
| InField (earlier : list (text * value)) (key : text) (inner : place)
    (later : list (text * value))
| InItem (earlier : list value) (inner : place) (later : list value).

(** The document with [v] at the place. *)
Fixpoint fill (c : place) (v : value) : value :=
  match c with
  | Here => v
  | InField earlier key inner later =>
    VObject (earlier ++ (key, fill inner v) :: later)
  | InItem earlier inner later => VArray (earlier ++ fill inner v :: later)
  end.

(** The place is inside the document, not the document itself. *)
Definition inside (c : place) : bool :=
  match c with
  | Here => false
  | InField _ _ _ _ | InItem _ _ _ => true
  end.

(** No key on the way to the place is [createdAt], [updatedAt] or [_]. *)
Fixpoint unskipped (c : place) : bool :=
  match c with
  | Here => true
  | InField _ key inner _ => negb (skipped key) && unskipped inner
  | InItem _ inner _ => unskipped inner
  end.

(** The path of the place as the specification writes it: field names
    joined by dots, the index of a list element in brackets after the path
    of the list; an element of a list that is itself an element of a list
    is named by its index after a dot.  [place_path c path] is for the
    document scanned under [path], [value_path c path] for the value of
    the field at [path]. *)
Fixpoint place_path (c : place) (path : text) : text :=
  match c with
  | Here => path
  | InField _ key inner _ =>
    match inner with
    | Here => extend_path path key
    | InField _ _ _ _ => place_path inner (extend_path path key)
    | InItem earlier item _ =>
      place_path item (index_path (extend_path path key) (length earlier))
    end
  | InItem before_ inner _ =>
    let currentPath := extend_path path (index_to_text (length before_)) in
    match inner with
    | Here => currentPath
    | InField _ _ _ _ => place_path inner currentPath
    | InItem earlier item _ =>
      place_path item (index_path currentPath (length earlier))
    end
  end.

Definition value_path (c : place) (currentPath : text) : text :=
  match c with
  | Here => currentPath
  | InField _ _ _ _ => place_path c currentPath
  | InItem earlier item _ =>
    place_path item (index_path currentPath (length earlier))
  end.

(** The field [note] of the second element of the list [logs] of a record
    that has an address in another field. *)
Definition nested_note : place :=
  InField [(u "nurse", VString (u "a@gmail.com"))] (u "logs")
    (InItem [VObject [(u "note", VString (u "stable"))]]
       (InField [(u "time", VNumber 8)] (u "note") Here [])
       [VNull])
    [(u "bed", VNumber 4)].

(** ** Addresses *)

Definition at_sign : char := ch "@".

(** The text begins, whatever the case of its letters, with one of the
    words of the look-ahead of [personalEmail]. *)
Definition institutional_prefix (domain : text) : bool :=
  existsb (fun w => startsWith (toLowerCase domain) (u w))
    ["hospital"; "healthsystem"; "medical"; "nicu"]%string.

(** Every [@] of the text is directly followed by such a word. *)
Fixpoint guarded (str : text) : bool :=
  match str with
  | [] => true
  | c :: rest =>
    (negb (char_eqb c at_sign) || institutional_prefix rest) && guarded rest
  end.

(** ** Writes and their handlers *)

(** The findings of a document, and whether it has any. *)
Definition findings_of (data : value) : list finding :=
  fst (scanForPHI data [] initial_patterns).

Definition has_findings (data : value) : bool :=
  0 <? length (findings_of data).

(** A write to the document and the trigger it fires. *)
Inductive event : Type :=
| Created (data : value)
| Updated (oldData newData : value).

Definition handle (f : faults) (ev : event) (context : params) (w : world)
    : result response * world :=
  match ev with
  | Created data => on_create f data context w
  | Updated oldData newData => on_update f oldData newData context w
  end.

(** The value the write committed, the corrective call of its handler and
    the audit entry the handler writes. *)
Definition committed (ev : event) : value :=
  match ev with
  | Created data => data
  | Updated _ newData => newData
  end.

Definition corrective (ev : event) : call :=
  match ev with
  | Created _ => CallDelete
  | Updated oldData _ => CallSet oldData false
  end.

Definition audit_of (ev : event) (context : params) : audit_entry :=
  mkAudit (appId context) (userId context) (shiftId context) (babyId context)
    (u "baby") (findings_of (committed ev))
    (match ev with Created _ => u "deleted" | Updated _ _ => u "rollback" end)
    (u "high").


(** Every audit write of the trace comes after a corrective call. *)
Fixpoint audit_follows_corrective (corrected : bool) (trace : list call)
    : bool :=
  match trace with
  | [] => true
  | CallAdd _ :: trace' =>
    corrected && audit_follows_corrective corrected trace'
  | (CallDelete | CallSet _ _) :: trace' => audit_follows_corrective true trace'
  end.

Definition empty_world : world := mkWorld None [] [] initial_patterns.

Definition some_params : params :=
  mkParams (u "default-nicu-app") (u "nurse1") (u "shift1") (u "baby1").

Definition phone_note : value :=
  VObject [(u "note", VString (u "call 555-123-4567"))].

Definition email_note : value :=
  VObject [(u "note", VString (u "mail test@gmail.com"))].

Definition clean_note : value :=
  VObject [(u "note", VString (u "fed well, stable"))].

(** The path of the shift document the callable reads. *)
Definition shift_path (number_text : Z -> text) (data : value) (uid : text)
    : option text :=
  match template number_text (destructured data (u "shiftId")),
        template number_text (destructured data (u "appId")) with
  | Some shiftId_, Some appId_ =>
    Some (u "artifacts/" ++ appId_ ++ u "/users/" ++ uid
            ++ u "/nicu_shifts/" ++ shiftId_)
  | _, _ => None
  end.

(** A Firestore that holds one shift with one baby and rejects no call,
    and a call for the summary of that shift. *)
Definition one_shift : firestore :=
  mkFirestore
    (fun path =>
       if text_eqb path (u "artifacts/app/users/nurse1/nicu_shifts/s1")
       then Snapshot (Some (VObject [(u "shiftDate", VString (u "2025-10-26"))]))
       else Snapshot None)
    (fun path =>
       if text_eqb path (u "artifacts/app/users/nurse1/nicu_shifts/s1/babies")
       then QuerySnapshot
              [(u "b1", VObject [(u "internalID_Nickname",
                                  VString (u "Baby Star"))])]
       else QuerySnapshot [])
    (fun _ _ => None).

(** A rendering that only tells whether the shift has babies. *)
Definition count_render (shift : value) (babies : list value) : text + text :=
  match babies with
  | [] => inl (u "empty")
  | _ :: _ => inl (u "report")
  end.

Definition one_shift_call : value :=
  VObject [(u "appId", VString (u "app")); (u "shiftId", VString (u "s1"))].

(** A Firestore that holds no document and rejects no call. *)
Definition no_documents : firestore :=
  mkFirestore (fun _ => Snapshot None) (fun _ => QuerySnapshot [])
    (fun _ _ => None).

(** ** Detectors and lengths *)

(** Position of a key in the table. *)
Definition rank (d : detector) : nat :=
  match d with
  | fullName => 0 | mrn => 1 | dob => 2 | ssn => 3 | phone => 4
  | personalEmail => 5 | exactDate => 6 | address => 7
  end.

(** The least number of code units a match of the pattern consumes. *)
Fixpoint min_len (r : regex) : nat :=
  match r with
  | REmpty | RWordB | RNegLook _ => 0
  | RAtom _ => 1
  | RRep _ min _ => min
  | RSeq r1 r2 => min_len r1 + min_len r2
  | RAlt r1 r2 => Nat.min (min_len r1) (min_len r2)
  | RGroup r1 => min_len r1
  end.

(** The greatest number of code units a match can consume, if bounded. *)
Fixpoint max_len (r : regex) : option nat :=
  match r with
  | REmpty | RWordB | RNegLook _ => Some 0
  | RAtom _ => Some 1
  | RRep _ _ max => max
  | RSeq r1 r2 =>
    match max_len r1, max_len r2 with
    | Some a, Some b => Some (a + b)
    | _, _ => None
    end
  | RAlt r1 r2 =>
    match max_len r1, max_len r2 with
    | Some a, Some b => Some (Nat.max a b)
    | _, _ => None
    end
  | RGroup r1 => max_len r1
  end.

(** No code unit of the text passes the test. *)
Definition none_of (test : char -> bool) (s : text) : bool :=
  forallb (fun c => negb (test c)) s.

(** ** Handler invocations *)

(** The handler of an event run on the store as it is, as when the trigger
    infrastructure delivers the same event once more. *)
Definition invoke (f : faults) (ev : event) (context : params) (w : world)
    : result response * world :=
  match ev with
  | Created data => validateBabyData f data context w
  | Updated oldData newData => validateBabyDataUpdate f oldData newData context w
  end.

(** The awaited corrective write of the handler is rejected. *)
Definition corrective_fails (f : faults) (ev : event) : bool :=
  match ev with
  | Created _ => delete_fails f
  | Updated _ _ => set_fails f
  end.

(** The object a handler returns after its corrective action. *)
Definition rejection (ev : event) : response :=
  match ev with
  | Created _ =>
    blocked (u "PHI detected") (map field (findings_of (committed ev)))
  | Updated _ _ =>
    rolled_back (u "PHI detected in update")
      (map field (findings_of (committed ev)))
  end.

(* ================================================================== *)
(** * Properties *)
(* ================================================================== *)

Arguments substring0 : simpl never.
Arguments substring : simpl never.
Arguments u : simpl never.

(** ** The matcher only moves forward *)

Lemma reaches_refl (p : pos) : reaches p p.
Proof. exists []; split; reflexivity. Qed.

Lemma reaches_trans (p q e : pos) : reaches p q -> reaches q e -> reaches p e.
Proof.
  intros [c1 [Hb1 Ha1]] [c2 [Hb2 Ha2]].
  exists (c1 ++ c2). split.
  - rewrite Hb2, Hb1, rev_app_distr, app_assoc. reflexivity.
  - rewrite Ha1, Ha2, app_assoc. reflexivity.
Qed.

Lemma reaches_step (c : char) (bef aft : text) :
  reaches (mkPos bef (c :: aft)) (mkPos (c :: bef) aft).
Proof. exists [c]; split; reflexivity. Qed.

Lemma reaches_endIndex (p e : pos) :
  reaches p e ->
  endIndex p <= endIndex e /\
  endIndex e + length (after e) = endIndex p + length (after p).
Proof.
  intros [c [Hb Ha]]. unfold endIndex.
  rewrite Hb, Ha, !length_app, length_rev. lia.
Qed.

Lemma rep_reaches (test : char -> bool) (aft : text) :
  forall min max bef e,
    In e (rep test min max bef aft) -> reaches (mkPos bef aft) e.
Proof.
  induction aft as [|c aft IH]; intros min max bef e Hin.
  - simpl in Hin.
    assert (Hstop : In e match min with O => [mkPos bef []] | S _ => [] end).
    { destruct max as [[|k]|]; exact Hin. }
    destruct min; simpl in Hstop; [|contradiction].
    destruct Hstop as [<-|[]]. apply reaches_refl.
  - assert (Hcases :
      In e (rep test (Nat.pred min) (option_map Nat.pred max) (c :: bef) aft)
      \/ In e match min with O => [mkPos bef (c :: aft)] | S _ => [] end).
    { simpl in Hin. destruct max as [[|k]|].
      - right; exact Hin.
      - destruct (test c); [apply in_app_or in Hin; exact Hin | right; exact Hin].
      - destruct (test c); [apply in_app_or in Hin; exact Hin | right; exact Hin]. }
    destruct Hcases as [Hrec|Hstop].
    + apply IH in Hrec.
      eapply reaches_trans; [apply reaches_step | exact Hrec].
    + destruct min; simpl in Hstop; [|contradiction].
      destruct Hstop as [<-|[]]. apply reaches_refl.
Qed.

Lemma matcher_reaches (ic : bool) (r : regex) :
  forall p e, In e (matcher ic r p) -> reaches p e.
Proof.
  induction r as [|a|a min max| |r1 IH1 r2 IH2|r1 IH1 r2 IH2|r1 IH1|r1 IH1];
    intros p e Hin; simpl in Hin.
  - destruct Hin as [<-|[]]. apply reaches_refl.
  - destruct p as [bef [|c aft]]; simpl in Hin; [contradiction|].
    destruct (catom_test ic a c); [|contradiction].
    destruct Hin as [<-|[]]. apply reaches_step.
  - destruct p as [bef aft]. eapply rep_reaches; exact Hin.
  - destruct (xorb _ _); [|contradiction].
    destruct Hin as [<-|[]]. apply reaches_refl.
  - apply in_flat_map in Hin. destruct Hin as [q [Hq He]].
    eapply reaches_trans; [apply IH1; exact Hq | apply IH2; exact He].
  - apply in_app_or in Hin. destruct Hin as [H|H]; [apply IH1|apply IH2]; exact H.
  - apply IH1; exact Hin.
  - destruct (matcher ic r1 p); [|contradiction].
    destruct Hin as [<-|[]]. apply reaches_refl.
Qed.

Lemma search_bounds (ic : bool) (r : regex) (aft : text) :
  forall bef s e,
    search ic r bef aft = Some (s, e) ->
    length bef <= endIndex s /\ endIndex s <= endIndex e /\
    endIndex e <= length bef + length aft.
Proof.
  induction aft as [|c aft IH]; intros bef s e H; simpl in H.
  - destruct (matcher ic r (mkPos bef [])) as [|e' l] eqn:Hm; [discriminate|].
    inversion H; subst s e'; clear H.
    assert (Hr : reaches (mkPos bef []) e)
      by (apply (matcher_reaches ic r); rewrite Hm; left; reflexivity).
    apply reaches_endIndex in Hr. unfold endIndex in *. simpl in *. lia.
  - destruct (matcher ic r (mkPos bef (c :: aft))) as [|e' l] eqn:Hm.
    + apply IH in H. simpl in *. lia.
    + inversion H; subst s e'; clear H.
      assert (Hr : reaches (mkPos bef (c :: aft)) e)
        by (apply (matcher_reaches ic r); rewrite Hm; left; reflexivity).
      apply reaches_endIndex in Hr. unfold endIndex in *. simpl in *. lia.
Qed.

(** ** [match] terminates and leaves no state behind *)

Lemma exec_progress (R : RegExp) (str : text) (li : nat) (m : text) (li' : nat) :
  global R = true ->
  RegExpBuiltinExec R str li = (Some m, li') ->
  li <= li' /\ li' <= length str /\ (m <> [] -> li < li').
Proof.
  intros Hg H. unfold RegExpBuiltinExec in H. rewrite Hg in H.
  destruct (length str <? li) eqn:Hlt; [discriminate|].
  apply Nat.ltb_ge in Hlt.
  destruct (search _ _ _ _) as [[s e]|] eqn:Hs; [|discriminate].
  inversion H; subst m li'; clear H.
  apply search_bounds in Hs.
  rewrite length_rev, length_firstn, length_skipn in Hs.
  rewrite Nat.min_l in Hs by exact Hlt.
  repeat split; try lia.
  intros Hne.
  destruct (Nat.eq_dec (endIndex s) (endIndex e)) as [Heq|Hneq]; [|lia].
  exfalso; apply Hne. unfold substring. rewrite Heq, Nat.sub_diag. reflexivity.
Qed.

Lemma exec_failure (R : RegExp) (str : text) (li li' : nat) :
  global R = true ->
  RegExpBuiltinExec R str li = (None, li') -> li' = 0.
Proof.
  intros Hg H. unfold RegExpBuiltinExec in H. rewrite Hg in H.
  destruct (length str <? li); [inversion H; reflexivity|].
  destruct (search _ _ _ _) as [[s e]|]; inversion H; reflexivity.
Qed.

(** With the fuel [string_match] provides, the loop of [match] always ends
    by a failing RegExpBuiltinExec, which resets [lastIndex] to 0. *)
Lemma match_loop_total (R : RegExp) (str : text) :
  global R = true ->
  forall fuel li A,
    li <= length str + 1 -> length str + 2 <= fuel + li ->
    exists matches, match_loop fuel R str li A = Some (matches, 0).
Proof.
  intros Hg. induction fuel as [|fuel IH]; intros li A Hle Hfuel; [lia|].
  simpl. destruct (RegExpBuiltinExec R str li) as [[m|] li'] eqn:He.
  - destruct (exec_progress _ _ _ _ _ Hg He) as [H1 [H2 H3]].
    apply IH.
    + destruct m; lia.
    + destruct m as [|c m]; [lia|].
      assert (li < li') by (apply H3; discriminate). lia.
  - rewrite (exec_failure _ _ _ _ Hg He). eexists; reflexivity.
Qed.

(** The result of [match] does not depend on the [lastIndex] left by an
    earlier use of the expression. *)
Lemma string_match_indep (str : text) (R : RegExp) (li1 li2 : nat) :
  fst (string_match str R li1) = fst (string_match str R li2).
Proof.
  unfold string_match. destruct (global R) eqn:Hg.
  - destruct (match_loop_total R str Hg (length str + 2) 0 [])
      as [matches Hm]; [lia|lia|].
    rewrite Hm. destruct matches; reflexivity.
  - unfold RegExpBuiltinExec. rewrite Hg.
    destruct (length str <? 0); [reflexivity|].
    destruct (search _ _ _ _) as [[s e]|]; reflexivity.
Qed.

Lemma string_match_resets (str : text) (R : RegExp) (li : nat) :
  global R = true -> snd (string_match str R li) = 0.
Proof.
  intros Hg. unfold string_match. rewrite Hg.
  destruct (match_loop_total R str Hg (length str + 2) 0 [])
    as [matches Hm]; [lia|lia|].
  rewrite Hm. destruct matches; reflexivity.
Qed.

(** ** detectPHI as a function of the text alone *)

Lemma detect_entry_fst (str : text) (vs : list violation)
    (entry : detector * RegExp) (st : regex_state) :
  fst (detect_entry str vs entry st) = vs ++ pushed str entry.
Proof.
  unfold pushed, detect_entry. destruct entry as [ty pattern].
  unfold bind, text_match, ret.
  pose proof (string_match_indep str pattern (st ty) (initial_patterns ty)) as H.
  destruct (string_match str pattern (st ty)) as [m1 l1].
  destruct (string_match str pattern (initial_patterns ty)) as [m2 l2].
  simpl in H. subst m2. simpl.
  destruct m1 as [matches|]; [|rewrite app_nil_r; reflexivity].
  destruct (detector_eqb ty fullName); [|reflexivity].
  destruct (0 <? length (filter not_medical_term matches));
    [reflexivity | rewrite app_nil_r; reflexivity].
Qed.

Lemma detect_loop_fst (str : text) (entries : list (detector * RegExp)) :
  forall vs st,
    fst (detect_loop str entries vs st) = vs ++ flat_map (pushed str) entries.
Proof.
  induction entries as [|entry entries IH]; intros vs st; simpl.
  - rewrite app_nil_r. reflexivity.
  - unfold bind.
    pose proof (detect_entry_fst str vs entry st) as H.
    destruct (detect_entry str vs entry st) as [vs' st']. simpl in H. subst vs'.
    rewrite IH, <- app_assoc. reflexivity.
Qed.

(** [detectPHI] returns the same value whatever the table was last used for. *)
Lemma detectPHI_fst (str : text) (st : regex_state) :
  fst (detectPHI str st) = detect str.
Proof.
  unfold detect, detectPHI. destruct str as [|c str]; [reflexivity|].
  unfold bind, ret.
  pose proof (detect_loop_fst (c :: str) PHI_PATTERNS [] st) as H1.
  pose proof (detect_loop_fst (c :: str) PHI_PATTERNS [] initial_patterns) as H2.
  destruct (detect_loop (c :: str) PHI_PATTERNS [] st) as [v1 s1].
  destruct (detect_loop (c :: str) PHI_PATTERNS [] initial_patterns) as [v2 s2].
  simpl in *. subst v1 v2. reflexivity.
Qed.

Lemma detect_unfold (str : text) :
  detect str =
  match str with
  | [] => None
  | _ :: _ =>
    let vs := flat_map (pushed str) PHI_PATTERNS in
    if 0 <? length vs then Some vs else None
  end.
Proof.
  unfold detect, detectPHI. destruct str as [|c str]; [reflexivity|].
  unfold bind, ret.
  pose proof (detect_loop_fst (c :: str) PHI_PATTERNS [] initial_patterns) as H.
  destruct (detect_loop (c :: str) PHI_PATTERNS [] initial_patterns) as [v s].
  simpl in *. subst v. reflexivity.
Qed.

(** ** Samples *)

Lemma match_loop_substrings (R : RegExp) (str : text) :
  forall fuel li A matches li',
    (forall m, In m A -> exists i j, m = substring i j str) ->
    match_loop fuel R str li A = Some (matches, li') ->
    forall m, In m matches -> exists i j, m = substring i j str.
Proof.
  induction fuel as [|fuel IH]; intros li A matches li' HA H; [discriminate|].
  simpl in H. destruct (RegExpBuiltinExec R str li) as [[m0|] l0] eqn:He.
  - eapply IH; [|exact H].
    intros m [<-|Hin]; [|apply HA; exact Hin].
    unfold RegExpBuiltinExec in He.
    destruct (length str <? _); [discriminate|].
    destruct (search _ _ _ _) as [[s e]|]; [|discriminate].
    inversion He. eauto.
  - inversion H; subst. intros m Hin. apply in_rev in Hin. apply HA; exact Hin.
Qed.

Lemma string_match_substrings (str : text) (R : RegExp) (li : nat)
    (matches : list text) :
  fst (string_match str R li) = Some matches ->
  forall m, In m matches -> exists i j, m = substring i j str.
Proof.
  unfold string_match. destruct (global R).
  - destruct (match_loop _ _ _ _ _) as [[ms l]|] eqn:Hl; [|discriminate].
    intros H. assert (ms = matches) by (destruct ms; [discriminate|inversion H; reflexivity]).
    subst ms. eapply match_loop_substrings; [|exact Hl]. intros m [].
  - unfold RegExpBuiltinExec.
    destruct (length str <? _); [discriminate|].
    destruct (search _ _ _ _) as [[s e]|]; [|discriminate].
    simpl. intros H; inversion H; subst. intros m [<-|[]]. eauto.
Qed.

Lemma detect_In_pushed (str : text) (phi : list violation) (v : violation) :
  detect str = Some phi -> In v phi ->
  exists entry, In entry PHI_PATTERNS /\ In v (pushed str entry).
Proof.
  rewrite detect_unfold. destruct str as [|c str]; [discriminate|].
  cbv zeta. remember (flat_map (pushed (c :: str)) PHI_PATTERNS) as vs eqn:Hvs.
  destruct (0 <? _); [|discriminate].
  intros H; injection H as <-. intros Hin. subst vs.
  apply in_flat_map in Hin. exact Hin.
Qed.

Lemma string_match_not_empty (str : text) (R : RegExp) (li : nat) :
  fst (string_match str R li) <> Some [].
Proof.
  unfold string_match. destruct (global R).
  - destruct (match_loop _ _ _ _ _) as [[[|a A] l]|]; discriminate.
  - destruct (RegExpBuiltinExec R str li) as [[m|] l]; discriminate.
Qed.

Lemma table_pattern (ty : detector) (pattern : RegExp) :
  In (ty, pattern) PHI_PATTERNS -> pattern = pattern_of ty.
Proof.
  unfold PHI_PATTERNS. simpl. intros H.
  repeat (destruct H as [H|H]; [injection H as <- <-; reflexivity|]).
  destruct H.
Qed.

Lemma retained_substrings (str : text) (d : detector) (m : text) :
  In m (retained str d) -> exists i j, m = substring i j str.
Proof.
  intros H.
  assert (Hin : In m (all_matches str d)).
  { unfold retained in H. destruct (detector_eqb d fullName); [|exact H].
    apply filter_In in H. tauto. }
  unfold all_matches in Hin.
  destruct (fst (string_match str (pattern_of d) 0)) as [matches|] eqn:Hm;
    [|destruct Hin].
  eapply string_match_substrings; [exact Hm|exact Hin].
Qed.

(** What the entry of a detector pushes is made of the first match that is
    retained: the violation has the type of the entry, counts the retained
    matches and carries at most 20 code units (15 for [fullName]) of the
    first of them, followed by three dots. *)
Lemma pushed_first (str : text) (ty : detector) (v : violation) :
  In v (pushed str (ty, pattern_of ty)) ->
  type v = ty
  /\ exists m rest,
      retained str ty = m :: rest
      /\ count v = length (m :: rest)
      /\ sample v =
         substring0 (if detector_eqb ty fullName then 15 else 20) m ++ u "...".
Proof.
  unfold pushed, detect_entry, bind, text_match, ret, retained, all_matches.
  change (initial_patterns ty) with 0.
  pose proof (string_match_not_empty str (pattern_of ty) 0) as Hne.
  destruct (string_match str (pattern_of ty) 0) as [[matches|] l];
    cbn [fst snd app]; [|intros []].
  cbn [fst] in Hne.
  destruct (detector_eqb ty fullName).
  - destruct (filter not_medical_term matches) as [|m rest];
      cbn [length Nat.ltb Nat.leb]; [intros []|].
    intros [<-|[]]. split; [reflexivity|]. exists m, rest.
    split; [reflexivity|]. split; reflexivity.
  - destruct matches as [|m rest]; [contradiction Hne; reflexivity|].
    intros [<-|[]]. split; [reflexivity|]. exists m, rest.
    split; [reflexivity|]. split; reflexivity.
Qed.

Lemma detect_first (str : text) (phi : list violation) (v : violation) :
  detect str = Some phi -> In v phi ->
  exists m rest,
    retained str (type v) = m :: rest
    /\ count v = length (m :: rest)
    /\ sample v =
       substring0 (if detector_eqb (type v) fullName then 15 else 20) m
       ++ u "...".
Proof.
  intros H Hin.
  destruct (detect_In_pushed _ _ _ H Hin) as [[ty pattern] [He Hp]].
  apply table_pattern in He. subst pattern.
  apply pushed_first in Hp. destruct Hp as [-> Hp]. exact Hp.
Qed.

(** ** The traversal *)

Lemma fst_bind {A B : Type} (c : M A) (k : A -> M B) (st : regex_state) :
  fst (bind c k st) = fst (k (fst (c st)) (snd (c st))).
Proof. unfold bind. destruct (c st); reflexivity. Qed.

Lemma scan_string_fst (findings : list finding) (w s : text) (st : regex_state) :
  fst (scan_string findings w s st) = findings ++ report (w, s).
Proof.
  unfold scan_string. rewrite fst_bind, detectPHI_fst.
  unfold report. simpl. destruct (detect s); simpl;
    [reflexivity | rewrite app_nil_r; reflexivity].
Qed.

Lemma scan_entry_fst (path key : text) (v : value) :
  scan_spec v ->
  match v with VArray items => Forall scan_spec items | _ => True end ->
  forall findings st,
    fst (scan_entry scanForPHI path findings key v st) =
    findings ++ flat_map report (entry_fields string_fields path key v).
Proof.
  intros Hv Hitems findings st. unfold scan_entry, entry_fields.
  destruct (skipped key); [simpl; rewrite app_nil_r; reflexivity|].
  cbv zeta.
  destruct v as [|b|n|s|items|entries];
    try (simpl; rewrite app_nil_r; reflexivity).
  - rewrite scan_string_fst. simpl. rewrite app_nil_r. reflexivity.
  - clear Hv. generalize 0 as index. revert findings st.
    induction Hitems as [|item items Hitem Hrest IH]; intros findings st index.
    + simpl. rewrite app_nil_r. reflexivity.
    + rewrite fst_bind, IH. cbn [flat_mapi]. rewrite flat_map_app, app_assoc.
      f_equal.
      destruct item as [|b|n|s| |]; cbn [fst ret];
        try (rewrite app_nil_r; reflexivity);
        try (rewrite fst_bind, Hitem; reflexivity).
      rewrite scan_string_fst. simpl. rewrite app_nil_r. reflexivity.
  - rewrite fst_bind, Hv. reflexivity.
Qed.

Lemma scanForPHI_spec_strong (v : value) :
  scan_spec v /\
  match v with VArray items => Forall scan_spec items | _ => True end.
Proof.
  induction v as [|b|n|s|items IH|entries IH] using value_nested_ind;
    try (split; [intros path st; reflexivity | exact I]).
  - assert (Hall : Forall scan_spec items).
    { eapply Forall_impl; [|exact IH]. intros a [Ha _]; exact Ha. }
    split; [|exact Hall].
    intros path st.
    change (string_fields (VArray items) path) with
      (flat_mapi (fun index v =>
         entry_fields string_fields path (index_to_text index) v) 0 items).
    rewrite <- (app_nil_l (flat_map report _)).
    simpl scanForPHI. generalize (@nil finding) as findings.
    generalize 0 as index. revert st.
    induction IH as [|v items [Hv Hvi] Hrest IHl];
      intros st index findings.
    + simpl. rewrite app_nil_r. reflexivity.
    + rewrite fst_bind, IHl by (inversion Hall; assumption).
      rewrite scan_entry_fst by assumption.
      cbn [flat_mapi]. rewrite flat_map_app, app_assoc. reflexivity.
  - split; [|exact I]. intros path st.
    change (string_fields (VObject entries) path) with
      (flat_map (fun '(key, v) => entry_fields string_fields path key v) entries).
    rewrite <- (app_nil_l (flat_map report _)).
    simpl scanForPHI. generalize (@nil finding) as findings. revert st.
    induction IH as [|[key v] entries [Hv Hvi] Hrest IHl]; intros st findings.
    + simpl. rewrite app_nil_r. reflexivity.
    + rewrite fst_bind, IHl. simpl in Hv, Hvi.
      rewrite scan_entry_fst by assumption.
      cbn [flat_map]. rewrite flat_map_app, app_assoc. reflexivity.
Qed.

Lemma skipped_index (i : nat) : skipped (index_to_text i) = false.
Proof.
  unfold index_to_text, NilZero.string_of_uint.
  destruct (Nat.to_uint i); reflexivity.
Qed.

(** The findings of the scanner are the reports of the visited string
    fields, in the order of the traversal. *)
Lemma scanForPHI_fst (data : value) (path : text) (st : regex_state) :
  fst (scanForPHI data path st) = flat_map report (string_fields data path).
Proof. apply scanForPHI_spec_strong. Qed.

(* ================================================================== *)
(** * Verified statements *)
(* ================================================================== *)

(** ** C8 *)

(** C8. Running the scanner twice on the same record gives the same ordered
    list of findings: the second scan, which starts from the table of
    expressions as the first scan left it, returns what the first returned,
    and so does a scan started from any other state of the table, so the
    [lastIndex] fields of the global expressions carry nothing observable
    from one scan to the next. *)
Theorem scanForPHI_twice_identical :
  forall (data : value) (path : text) (st st' : regex_state),
    fst (scanForPHI data path (snd (scanForPHI data path st)))
    = fst (scanForPHI data path st)
    /\ fst (scanForPHI data path st') = fst (scanForPHI data path st).
Proof.
  intros data path st st'. rewrite !scanForPHI_fst. split; reflexivity.
Qed.

(** ** C5 *)

Lemma length_u_dots : length (u "...") = 3.
Proof. reflexivity. Qed.

Lemma length_substring0 (n : nat) (s : text) : length (substring0 n s) <= n.
Proof. unfold substring0. rewrite length_firstn. lia. Qed.

(** C5, as stated, fails: the sample of a finding can be longer than 20
    code units.  For an address with a long local part the sample is the
    first 20 code units of the match followed by three dots. *)
Lemma sample_longer_than_20 :
  ~ (forall (str : text) (st : regex_state) (phi : list violation)
            (v : violation),
        fst (detectPHI str st) = Some phi -> In v phi ->
        length (sample v) <= 20).
Proof.
  intros H.
  specialize (H (u "abcdefghijklmnopqrstuvwxyz@gmail.com") initial_patterns
                [mkViolation personalEmail 1 (u "abcdefghijklmnopqrst...")]
                (mkViolation personalEmail 1 (u "abcdefghijklmnopqrst..."))).
  assert (Hlen : length (u "abcdefghijklmnopqrst...") = 23) by reflexivity.
  simpl sample in H. rewrite Hlen in H.
  assert (23 <= 20); [|lia].
  apply H; [vm_compute; reflexivity | left; reflexivity].
Qed.

(** C5, amended. Every violation returned by [detectPHI], for every text and
    every detector, carries as its sample the first 20 code units at most of
    the first match of its detector in the text followed by the three
    characters "..."; for [fullName] it is the first 15 code units at most
    of the first match the filter on medical terms retains.  The sample is
    therefore at most 23 code units long (18 for [fullName]). *)
Theorem sample_truncated_with_ellipsis :
  forall (str : text) (st : regex_state) (phi : list violation)
         (v : violation),
    fst (detectPHI str st) = Some phi -> In v phi ->
    exists (m : text) (rest : list text),
      retained str (type v) = m :: rest
      /\ (exists i j, m = substring i j str)
      /\ sample v =
         substring0 (if detector_eqb (type v) fullName then 15 else 20) m
         ++ u "..."
      /\ length (sample v)
         <= (if detector_eqb (type v) fullName then 18 else 23).
Proof.
  intros str st phi v Hphi Hin. rewrite detectPHI_fst in Hphi.
  destruct (detect_first _ _ _ Hphi Hin) as [m [rest [Hr [_ Hs]]]].
  exists m, rest. split; [exact Hr|].
  split; [apply (retained_substrings str (type v)); rewrite Hr; left; reflexivity|].
  split; [exact Hs|].
  rewrite Hs, length_app, length_u_dots.
  pose proof (length_substring0
                (if detector_eqb (type v) fullName then 15 else 20) m).
  destruct (detector_eqb (type v) fullName); lia.
Qed.

(** The statement at a text with two phone numbers: the sample is made of
    the first. *)
Lemma sample_truncated_with_ellipsis_witness :
  exists (m : text) (rest : list text),
    retained (u "call 555-123-4567 or 555-987-6543")
      (type (mkViolation phone 2 (u "555-123-4567..."))) = m :: rest
    /\ (exists i j, m = substring i j (u "call 555-123-4567 or 555-987-6543"))
    /\ sample (mkViolation phone 2 (u "555-123-4567...")) =
       substring0
         (if detector_eqb (type (mkViolation phone 2 (u "555-123-4567...")))
               fullName then 15 else 20) m
       ++ u "..."
    /\ length (sample (mkViolation phone 2 (u "555-123-4567...")))
       <= (if detector_eqb (type (mkViolation phone 2 (u "555-123-4567...")))
                fullName then 18 else 23).
Proof.
  apply (sample_truncated_with_ellipsis
           (u "call 555-123-4567 or 555-987-6543") initial_patterns
           [mkViolation phone 2 (u "555-123-4567...")]
           (mkViolation phone 2 (u "555-123-4567..."))).
  - vm_compute. reflexivity.
  - left. reflexivity.
Defined.

(** ** C6 *)

Lemma string_fields_object_app (pre post : list (text * value)) (key : text)
    (v : value) (path : text) :
  string_fields (VObject (pre ++ (key, v) :: post)) path =
  string_fields (VObject pre) path
  ++ entry_fields string_fields path key v
  ++ string_fields (VObject post) path.
Proof.
  change (flat_map (fun '(key, v) => entry_fields string_fields path key v)
            (pre ++ (key, v) :: post) =
          flat_map (fun '(key, v) => entry_fields string_fields path key v) pre
          ++ entry_fields string_fields path key v
          ++ flat_map (fun '(key, v) => entry_fields string_fields path key v) post).
  rewrite flat_map_app. reflexivity.
Qed.

Lemma detect_phone :
  detect (u "555-123-4567") = Some [mkViolation phone 1 (u "555-123-4567...")].
Proof. vm_compute. reflexivity. Qed.

Lemma detect_gmail :
  detect (u "test@gmail.com")
  = Some [mkViolation personalEmail 1 (u "test@gmail.com...")].
Proof. vm_compute. reflexivity. Qed.

Lemma detect_hospital : detect (u "test@hospital.org") = None.
Proof. vm_compute. reflexivity. Qed.

(** C6, as stated, fails: in a field named [_] (or [createdAt], or
    [updatedAt]) the text "555-123-4567" yields no finding at all, where the
    claim requires one phone finding on the path of the field. *)
Lemma phone_under_skipped_key_unreported :
  fst (scanForPHI (VObject [(u "_", VString (u "555-123-4567"))]) []
         initial_patterns) = [].
Proof. vm_compute. reflexivity. Qed.

Lemma flat_mapi_middle {A B : Type} (f : nat -> A -> list B)
    (earlier later : list A) (x : A) :
  forall i0,
    flat_mapi f i0 (earlier ++ x :: later) =
    flat_mapi f i0 earlier ++ f (i0 + length earlier) x
    ++ flat_mapi f (S (i0 + length earlier)) later.
Proof.
  induction earlier as [|a earlier IH]; intros i0; cbn [app flat_mapi length].
  - rewrite Nat.add_0_r. reflexivity.
  - rewrite IH, <- app_assoc, Nat.add_succ_r. reflexivity.
Qed.

Lemma place_path_field (earlier later : list (text * value)) (key : text)
    (inner : place) (path : text) :
  place_path (InField earlier key inner later) path
  = value_path inner (extend_path path key).
Proof. destruct inner; reflexivity. Qed.

Lemma place_path_item (earlier later : list value) (inner : place)
    (path : text) :
  place_path (InItem earlier inner later) path
  = value_path inner (extend_path path (index_to_text (length earlier))).
Proof. destruct inner; reflexivity. Qed.

(** The visits of a document with a string at a place that no skipped key
    hides: those before the place, the visit of the place under its path,
    and those after it; the visits around do not depend on the string. *)
Lemma fields_at_place (c : place) :
  (inside c = true -> unskipped c = true ->
   forall path, exists before_it after_it,
     forall t,
       string_fields (fill c (VString t)) path
       = before_it ++ (place_path c path, t) :: after_it)
  /\ (unskipped c = true ->
      forall path key, skipped key = false ->
      exists before_it after_it,
        forall t,
          entry_fields string_fields path key (fill c (VString t))
          = before_it ++ (value_path c (extend_path path key), t) :: after_it).
Proof.
  induction c as [|earlier key0 inner [IHd IHe] later
                  |earlier inner [IHd IHe] later].
  - split; [discriminate|].
    intros _ path key Hk. exists [], []. intros t.
    unfold entry_fields. rewrite Hk. reflexivity.
  - assert (Hdoc :
      unskipped (InField earlier key0 inner later) = true ->
      forall path, exists before_it after_it,
        forall t,
          string_fields (fill (InField earlier key0 inner later) (VString t))
            path
          = before_it
            ++ (place_path (InField earlier key0 inner later) path, t)
            :: after_it).
    { cbn [unskipped]. intros Hu path.
      apply andb_prop in Hu. destruct Hu as [Hk Hu].
      apply negb_true_iff in Hk.
      destruct (IHe Hu path key0 Hk) as [b [a Hba]].
      exists (string_fields (VObject earlier) path ++ b),
             (a ++ string_fields (VObject later) path).
      intros t. cbn [fill].
      rewrite string_fields_object_app, Hba, place_path_field.
      rewrite <- !app_assoc. reflexivity. }
    split; [intros _; exact Hdoc|].
    intros Hu path key Hk.
    destruct (Hdoc Hu (extend_path path key)) as [b [a Hba]].
    exists b, a. intros t. rewrite <- Hba.
    unfold entry_fields. rewrite Hk. reflexivity.
  - split.
    + intros _ Hu path. cbn [unskipped] in Hu.
      destruct (IHe Hu path (index_to_text (length earlier))
                  (skipped_index _)) as [b [a Hba]].
      eexists (flat_mapi _ 0 earlier ++ b),
              (a ++ flat_mapi _ (S (length earlier)) later).
      intros t. cbn [fill].
      change (string_fields (VArray (earlier ++ fill inner (VString t) :: later))
                path)
        with (flat_mapi
                (fun index v =>
                   entry_fields string_fields path (index_to_text index) v)
                0 (earlier ++ fill inner (VString t) :: later)).
      rewrite flat_mapi_middle. cbn [Nat.add].
      rewrite Hba, place_path_item, <- !app_assoc. reflexivity.
    + intros Hu path key Hk. cbn [unskipped] in Hu.
      set (currentPath := extend_path path key).
      assert (Hitem : exists b a, forall t,
        match fill inner (VString t) with
        | VString s => [(index_path currentPath (length earlier), s)]
        | VNull | VArray _ | VObject _ =>
          string_fields (fill inner (VString t))
            (index_path currentPath (length earlier))
        | VBool _ | VNumber _ => []
        end
        = b ++ (value_path (InItem earlier inner later) currentPath, t) :: a).
      { destruct inner as [|e1 k1 i1 l1|e1 i1 l1].
        - exists [], []. intros t. reflexivity.
        - destruct (IHd eq_refl Hu (index_path currentPath (length earlier)))
            as [b [a Hba]].
          exists b, a. intros t. rewrite <- Hba. reflexivity.
        - destruct (IHd eq_refl Hu (index_path currentPath (length earlier)))
            as [b [a Hba]].
          exists b, a. intros t. rewrite <- Hba. reflexivity. }
      destruct Hitem as [b [a Hba]].
      eexists (flat_mapi _ 0 earlier ++ b),
              (a ++ flat_mapi _ (S (length earlier)) later).
      intros t. unfold entry_fields. rewrite Hk. cbn [fill].
      rewrite flat_mapi_middle. cbn [Nat.add]. fold currentPath.
      rewrite Hba, <- !app_assoc. reflexivity.
Qed.

(** The findings of a document with a string at such a place: those
    reported before it, the report of the string under the path of the
    place, and those reported after it. *)
Lemma scan_at_place (c : place) (path : text) :
  inside c = true -> unskipped c = true ->
  exists before_it after_it,
    forall t st,
      fst (scanForPHI (fill c (VString t)) path st)
      = before_it ++ report (place_path c path, t) ++ after_it.
Proof.
  intros Hi Hu.
  destruct (proj1 (fields_at_place c) Hi Hu path) as [b [a Hba]].
  exists (flat_map report b), (flat_map report a). intros t st.
  rewrite scanForPHI_fst, Hba, flat_map_app. reflexivity.
Qed.

(** C6, amended. In every record, for every string field or list element at
    any depth that is not below a key [createdAt], [updatedAt] or [_]
    (neither its own key nor a key above it is one of them): when its text
    is "555-123-4567" it contributes exactly one finding, on its path, with
    the single violation [phone] (count 1); when its text is
    "test@gmail.com" it contributes exactly one finding with the single
    violation [personalEmail] (count 1); when its text is
    "test@hospital.org" it contributes no finding, for the email detector
    or any other.  The findings reported before and after it are the same
    in the three cases, and whatever its text is they surround the report
    of that text. *)
Theorem scalar_field_scenarios :
  forall (c : place) (path : text),
    inside c = true -> unskipped c = true ->
    exists before_it after_it : list finding,
      (forall (t : text) (st : regex_state),
          fst (scanForPHI (fill c (VString t)) path st)
          = before_it ++ report (place_path c path, t) ++ after_it)
      /\ (forall st : regex_state,
            fst (scanForPHI (fill c (VString (u "555-123-4567"))) path st)
            = before_it
              ++ [mkFinding (place_path c path)
                    [mkViolation phone 1 (u "555-123-4567...")]]
              ++ after_it)
      /\ (forall st : regex_state,
            fst (scanForPHI (fill c (VString (u "test@gmail.com"))) path st)
            = before_it
              ++ [mkFinding (place_path c path)
                    [mkViolation personalEmail 1 (u "test@gmail.com...")]]
              ++ after_it)
      /\ (forall st : regex_state,
            fst (scanForPHI (fill c (VString (u "test@hospital.org"))) path st)
            = before_it ++ after_it).
Proof.
  intros c path Hi Hu.
  destruct (scan_at_place c path Hi Hu) as [b [a Hba]].
  exists b, a. split; [exact Hba|].
  split; [|split]; intros st; rewrite Hba; unfold report; cbn [fst snd].
  - rewrite detect_phone. reflexivity.
  - rewrite detect_gmail. reflexivity.
  - rewrite detect_hospital. reflexivity.
Qed.

(** The statement for the field [note] of the second element of the list
    [logs] of a record. *)
Lemma scalar_field_scenarios_witness :
  exists before_it after_it : list finding,
    (forall (t : text) (st : regex_state),
        fst (scanForPHI (fill nested_note (VString t)) [] st)
        = before_it ++ report (place_path nested_note [], t) ++ after_it)
    /\ (forall st : regex_state,
          fst (scanForPHI (fill nested_note (VString (u "555-123-4567"))) [] st)
          = before_it
            ++ [mkFinding (place_path nested_note [])
                  [mkViolation phone 1 (u "555-123-4567...")]]
            ++ after_it)
    /\ (forall st : regex_state,
          fst (scanForPHI (fill nested_note (VString (u "test@gmail.com"))) [] st)
          = before_it
            ++ [mkFinding (place_path nested_note [])
                  [mkViolation personalEmail 1 (u "test@gmail.com...")]]
            ++ after_it)
    /\ (forall st : regex_state,
          fst (scanForPHI (fill nested_note (VString (u "test@hospital.org")))
                 [] st)
          = before_it ++ after_it).
Proof.
  apply (scalar_field_scenarios nested_note []); reflexivity.
Defined.

(** The place of the witness, its path, and the scan of the document with
    the phone number there. *)
Example nested_note_scan :
  place_path nested_note [] = u "logs[1].note"
  /\ fst (scanForPHI (fill nested_note (VString (u "555-123-4567"))) []
            initial_patterns)
     = [mkFinding (u "nurse") [mkViolation personalEmail 1 (u "a@gmail.com...")];
        mkFinding (u "logs[1].note")
          [mkViolation phone 1 (u "555-123-4567...")]].
Proof. vm_compute. split; reflexivity. Qed.

(** ** C7 *)

Lemma flat_mapi_In {A B : Type} (f : nat -> A -> list B) (l : list A) :
  forall i0 i x y,
    nth_error l i = Some x -> In y (f (i0 + i) x) -> In y (flat_mapi f i0 l).
Proof.
  induction l as [|a l IH]; intros i0 i x y Hnth Hy.
  - destruct i; discriminate.
  - cbn [flat_mapi]. apply in_or_app. destruct i as [|i].
    + left. simpl in Hnth. injection Hnth as ->.
      rewrite Nat.add_0_r in Hy. exact Hy.
    + right. apply (IH (S i0) i x y); [exact Hnth|].
      rewrite Nat.add_succ_comm. exact Hy.
Qed.

Lemma map_flat_mapi {A B C : Type} (g : B -> C) (f : nat -> A -> list B)
    (l : list A) :
  forall i0, map g (flat_mapi f i0 l) = flat_mapi (fun i x => map g (f i x)) i0 l.
Proof.
  induction l as [|a l IH]; intros i0; cbn [flat_mapi]; [reflexivity|].
  rewrite map_app, IH. reflexivity.
Qed.

Lemma flat_mapi_ext_Forall {A B : Type} (f : nat -> A -> list B)
    (g : A -> list B) (l : list A) :
  Forall (fun x => forall i, f i x = g x) l ->
  forall i0, flat_mapi f i0 l = flat_map g l.
Proof.
  induction 1 as [|a l Ha _ IH]; intros i0; cbn [flat_mapi flat_map];
    [reflexivity|].
  rewrite Ha, IH. reflexivity.
Qed.

Lemma extend_index_path (cp key : text) (i : nat) :
  extend_path (index_path cp i) key =
  cp ++ u "[" ++ index_to_text i ++ u "]." ++ key.
Proof.
  unfold extend_path, index_path.
  destruct (cp ++ u "[" ++ index_to_text i ++ u "]") as [|c rest] eqn:E.
  - apply app_eq_nil in E. destruct E as [_ E]. discriminate E.
  - rewrite <- E, <- !app_assoc. reflexivity.
Qed.

Lemma entry_fields_texts (path key : text) (v : value) :
  visits_spec v ->
  match v with VArray items => Forall visits_spec items | _ => True end ->
  map snd (entry_fields string_fields path key v) =
  if skipped key then [] else strings_below v.
Proof.
  intros Hv Hitems. unfold entry_fields.
  destruct (skipped key); [reflexivity|]. cbv zeta.
  destruct v as [|b|n|s|items|entries]; try reflexivity.
  - rewrite map_flat_mapi. cbn [strings_below].
    apply flat_mapi_ext_Forall.
    eapply Forall_impl; [|exact Hitems].
    intros item Hitem i.
    destruct item; try reflexivity; rewrite Hitem; reflexivity.
  - rewrite Hv. reflexivity.
Qed.

Lemma string_fields_texts_strong (v : value) :
  visits_spec v /\
  match v with VArray items => Forall visits_spec items | _ => True end.
Proof.
  induction v as [|b|n|s|items IH|entries IH] using value_nested_ind;
    try (split; [intros path; reflexivity | exact I]).
  - assert (Hall : Forall visits_spec items).
    { eapply Forall_impl; [|exact IH]. intros a [Ha _]; exact Ha. }
    split; [|exact Hall]. intros path.
    cbn [string_fields strings_below]. rewrite map_flat_mapi.
    apply flat_mapi_ext_Forall.
    eapply Forall_impl; [|exact IH].
    intros item [Hitem Hsub] i. cbv beta.
    rewrite entry_fields_texts by assumption.
    rewrite skipped_index. reflexivity.
  - split; [|exact I]. intros path. cbn [string_fields strings_below].
    induction IH as [|[key v] entries [Hv Hvi] _ IHl]; [reflexivity|].
    cbn [flat_map]. rewrite map_app, IHl. simpl in Hv, Hvi.
    rewrite entry_fields_texts by assumption. reflexivity.
Qed.

(** C7, as stated, fails: a matching string three levels deep below a key
    named [_] is not reported, and not visited. *)
Lemma nested_value_under_skipped_key_unreported :
  fst (scanForPHI
         (VObject [(u "_",
            VArray [VObject [(u "b", VArray [VString (u "555-123-4567")])]])])
         [] initial_patterns) = [].
Proof. vm_compute. reflexivity. Qed.

(** C7, amended. (1) The findings of the scanner are, in order, the results
    of [detectPHI] on the string fields the traversal lists, and the texts
    of these fields are exactly the string values of the document that are
    not below a key [createdAt], [updatedAt] or [_], each occurrence once.
    (2) For a string [s] in a list under the field [k2] of a record that is
    element [i] of the list under the field [k1] of the record, with neither
    [k1] nor [k2] a skipped key and [detectPHI] not null on [s], the scanner
    reports a finding with these violations whose field is
    [k1[i].k2[j]] (prefixed by the path the scan was started with). *)
Theorem traversal_visits_and_paths :
  forall (data : value) (path : text) (st : regex_state),
    (fst (scanForPHI data path st) = flat_map report (string_fields data path)
     /\ map snd (string_fields data path) =
        match data with VString _ => [] | _ => strings_below data end)
    /\ forall (entries es2 : list (text * value)) (l1 l2 : list value)
              (k1 k2 s : text) (i j : nat) (phi : list violation),
        data = VObject entries ->
        In (k1, VArray l1) entries -> nth_error l1 i = Some (VObject es2) ->
        In (k2, VArray l2) es2 -> nth_error l2 j = Some (VString s) ->
        skipped k1 = false -> skipped k2 = false ->
        fst (detectPHI s st) = Some phi ->
        In (mkFinding
              (extend_path path k1 ++ u "[" ++ index_to_text i ++ u "]."
               ++ k2 ++ u "[" ++ index_to_text j ++ u "]") phi)
           (fst (scanForPHI data path st)).
Proof.
  intros data path st. split.
  - split; [apply scanForPHI_fst | apply string_fields_texts_strong].
  - intros entries es2 l1 l2 k1 k2 s i j phi -> H1 Hi H2 Hj Hk1 Hk2 Hphi.
    rewrite detectPHI_fst in Hphi. rewrite scanForPHI_fst.
    apply in_flat_map.
    exists (extend_path path k1 ++ u "[" ++ index_to_text i ++ u "]."
            ++ k2 ++ u "[" ++ index_to_text j ++ u "]", s).
    split; [|unfold report; cbn [fst snd]; rewrite Hphi; left; reflexivity].
    cbn [string_fields]. apply in_flat_map.
    exists (k1, VArray l1). split; [exact H1|].
    unfold entry_fields at 1. rewrite Hk1. cbv zeta.
    apply (flat_mapi_In _ l1 0 i (VObject es2)); [exact Hi|].
    cbn [Nat.add string_fields]. apply in_flat_map.
    exists (k2, VArray l2). split; [exact H2|].
    unfold entry_fields. rewrite Hk2. cbv zeta.
    apply (flat_mapi_In _ l2 0 j (VString s)); [exact Hj|].
    cbn [Nat.add]. left. f_equal.
    unfold index_path at 1. rewrite extend_index_path.
    rewrite <- !app_assoc. reflexivity.
Qed.

(** The statement for a phone number at [logs[0].notes[1]]. *)
Lemma traversal_visits_and_paths_witness :
  In (mkFinding (u "logs[0].notes[1]")
        [mkViolation phone 1 (u "555-123-4567...")])
     (fst (scanForPHI
             (VObject [(u "logs",
                VArray [VObject [(u "notes",
                  VArray [VString (u "fed well");
                          VString (u "555-123-4567")])]])])
             [] initial_patterns)).
Proof.
  apply (proj2 (traversal_visits_and_paths
                  (VObject [(u "logs",
                     VArray [VObject [(u "notes",
                       VArray [VString (u "fed well");
                               VString (u "555-123-4567")])]])])
                  [] initial_patterns)
           [(u "logs",
             VArray [VObject [(u "notes",
               VArray [VString (u "fed well");
                       VString (u "555-123-4567")])]])]
           [(u "notes",
             VArray [VString (u "fed well"); VString (u "555-123-4567")])]
           [VObject [(u "notes",
              VArray [VString (u "fed well"); VString (u "555-123-4567")])]]
           [VString (u "fed well"); VString (u "555-123-4567")]
           (u "logs") (u "notes") (u "555-123-4567") 0 1
           [mkViolation phone 1 (u "555-123-4567...")]).
  - reflexivity.
  - left. reflexivity.
  - reflexivity.
  - left. reflexivity.
  - reflexivity.
  - reflexivity.
  - reflexivity.
  - vm_compute. reflexivity.
Defined.

(** ** C9 *)

Lemma text_eqb_eq (a b : text) : text_eqb a b = true <-> a = b.
Proof.
  revert b. induction a as [|x a IH]; intros [|y b]; simpl;
    try (split; [discriminate | discriminate]); [tauto|].
  unfold char_eqb. rewrite andb_true_iff, N.eqb_eq, IH.
  split; [intros [-> ->]; reflexivity | intros H; inversion H; tauto].
Qed.

Lemma skipped_spec (key : text) :
  skipped key = true <->
  key = u "createdAt" \/ key = u "updatedAt" \/ key = u "_".
Proof.
  unfold skipped. rewrite !orb_true_iff, !text_eqb_eq. tauto.
Qed.

Lemma flat_mapi_map {A A' B : Type} (f : nat -> A' -> list B) (g : A -> A')
    (l : list A) :
  forall i0, flat_mapi f i0 (map g l) = flat_mapi (fun i x => f i (g x)) i0 l.
Proof.
  induction l as [|a l IH]; intros i0; cbn [map flat_mapi]; [reflexivity|].
  rewrite IH. reflexivity.
Qed.

Lemma flat_mapi_ext {A B : Type} (f g : nat -> A -> list B) (l : list A) :
  Forall (fun x => forall i, f i x = g i x) l ->
  forall i0, flat_mapi f i0 l = flat_mapi g i0 l.
Proof.
  induction 1 as [|a l Ha _ IH]; intros i0; cbn [flat_mapi]; [reflexivity|].
  rewrite Ha, IH. reflexivity.
Qed.

Lemma entry_fields_erase (path key : text) (v : value) :
  erase_spec v ->
  match v with VArray items => Forall erase_spec items | _ => True end ->
  entry_fields string_fields path key (erase_skipped v) =
  entry_fields string_fields path key v.
Proof.
  intros Hv Hitems. unfold entry_fields.
  destruct (skipped key); [reflexivity|]. cbv zeta.
  destruct v as [|b|n|s|items|entries]; try reflexivity.
  - cbn [erase_skipped]. rewrite flat_mapi_map. apply flat_mapi_ext.
    eapply Forall_impl; [|exact Hitems].
    intros item Hitem i. destruct item; try reflexivity; apply Hitem.
  - apply Hv.
Qed.

Lemma string_fields_erase_strong (v : value) :
  erase_spec v /\
  match v with VArray items => Forall erase_spec items | _ => True end.
Proof.
  induction v as [|b|n|s|items IH|entries IH] using value_nested_ind;
    try (split; [intros path; reflexivity | exact I]).
  - assert (Hall : Forall erase_spec items).
    { eapply Forall_impl; [|exact IH]. intros a [Ha _]; exact Ha. }
    split; [|exact Hall]. intros path.
    cbn [erase_skipped string_fields]. rewrite flat_mapi_map.
    apply flat_mapi_ext. eapply Forall_impl; [|exact IH].
    intros item [Hitem Hsub] i. apply entry_fields_erase; assumption.
  - split; [|exact I]. intros path. cbn [erase_skipped string_fields].
    induction IH as [|[key v] entries [Hv Hvi] _ IHl]; [reflexivity|].
    cbn [flat_map]. rewrite flat_map_app, IHl. f_equal.
    simpl in Hv, Hvi. destruct (skipped key) eqn:Hk.
    + unfold entry_fields. rewrite Hk. reflexivity.
    + cbn [flat_map]. rewrite app_nil_r.
      apply entry_fields_erase; assumption.
Qed.

(** C9. The findings of the scanner do not depend on what is stored under
    an object field named [_], [createdAt] or [updatedAt], at any depth:
    two records that become equal once these fields are removed everywhere
    (that is, records differing only in those fields) yield identical
    findings, from whatever state of the expression table each scan starts;
    in particular every record yields the findings of the record without
    these fields, so a string under a key [_] is never scanned. *)
Theorem scanForPHI_ignores_skipped_fields :
  forall (d1 d2 : value) (path : text) (st1 st2 : regex_state),
    erase_skipped d1 = erase_skipped d2 ->
    fst (scanForPHI d1 path st1) = fst (scanForPHI d2 path st2)
    /\ fst (scanForPHI d1 path st1)
       = fst (scanForPHI (erase_skipped d1) path st1).
Proof.
  intros d1 d2 path st1 st2 H. rewrite !scanForPHI_fst.
  pose proof (proj1 (string_fields_erase_strong d1) path) as H1.
  pose proof (proj1 (string_fields_erase_strong d2) path) as H2.
  split.
  - rewrite <- H1, <- H2, H. reflexivity.
  - rewrite H1. reflexivity.
Qed.

(** The statement for two records that differ in [_], [createdAt] and
    [updatedAt] only. *)
Lemma scanForPHI_ignores_skipped_fields_witness :
  fst (scanForPHI
         (VObject [(u "_", VString (u "555-123-4567"));
                   (u "createdAt", VString (u "test@gmail.com"));
                   (u "logs", VArray [VObject
                      [(u "updatedAt", VString (u "Mother: Jane Smith"));
                       (u "note", VString (u "call 555-123-4567"))]])])
         [] initial_patterns)
  = fst (scanForPHI
           (VObject [(u "_", VNumber 3);
                     (u "logs", VArray [VObject
                        [(u "note", VString (u "call 555-123-4567"))]])])
           [] (set_lastIndex phone 7 initial_patterns))
  /\ fst (scanForPHI
         (VObject [(u "_", VString (u "555-123-4567"));
                   (u "createdAt", VString (u "test@gmail.com"));
                   (u "logs", VArray [VObject
                      [(u "updatedAt", VString (u "Mother: Jane Smith"));
                       (u "note", VString (u "call 555-123-4567"))]])])
         [] initial_patterns)
     = fst (scanForPHI
              (erase_skipped
                 (VObject [(u "_", VString (u "555-123-4567"));
                   (u "createdAt", VString (u "test@gmail.com"));
                   (u "logs", VArray [VObject
                      [(u "updatedAt", VString (u "Mother: Jane Smith"));
                       (u "note", VString (u "call 555-123-4567"))]])]))
              [] initial_patterns).
Proof.
  apply scanForPHI_ignores_skipped_fields.
  vm_compute. reflexivity.
Defined.

(** ** C10 *)

Lemma flat_map_nil {A B : Type} (f : A -> list B) (l : list A) :
  (forall x, In x l -> f x = []) -> flat_map f l = [].
Proof.
  induction l as [|a l IH]; intros H; [reflexivity|].
  cbn [flat_map]. rewrite (H a (or_introl eq_refl)), IH; [reflexivity|].
  intros x Hx. apply H. right. exact Hx.
Qed.

Lemma word_matches (w : text) :
  forall bef aft,
    startsWith (toLowerCase aft) w = true ->
    matcher true (fold_right (fun c r => RSeq (RAtom (CLit c)) r) REmpty w)
      (mkPos bef aft) <> [].
Proof.
  induction w as [|x w IH]; intros bef aft H.
  - discriminate.
  - destruct aft as [|y aft]; [discriminate|].
    cbn [toLowerCase map startsWith] in H. apply andb_true_iff in H.
    destruct H as [Hx Hw].
    cbn [fold_right matcher after before].
    assert (Ht : catom_test true (CLit x) y = true).
    { cbn [catom_test variants existsb]. rewrite Hx, !orb_true_r. reflexivity. }
    rewrite Ht. cbn [flat_map]. rewrite app_nil_r. apply IH. exact Hw.
Qed.

Lemma institutional_matches (bef aft : text) :
  institutional_prefix aft = true ->
  matcher true institutional (mkPos bef aft) <> [].
Proof.
  unfold institutional_prefix. cbn [existsb]. rewrite !orb_true_iff.
  intros H.
  change (matcher true institutional (mkPos bef aft)) with
    (matcher true (lit "hospital") (mkPos bef aft)
     ++ matcher true (lit "healthsystem") (mkPos bef aft)
     ++ matcher true (lit "medical") (mkPos bef aft)
     ++ matcher true (lit "nicu") (mkPos bef aft)).
  intros Hnil.
  apply app_eq_nil in Hnil. destruct Hnil as [H1 Hnil].
  apply app_eq_nil in Hnil. destruct Hnil as [H2 Hnil].
  apply app_eq_nil in Hnil. destruct Hnil as [H3 H4].
  destruct H as [H|[H|[H|[H|H]]]]; [| | | |discriminate].
  - exact (word_matches _ bef aft H H1).
  - exact (word_matches _ bef aft H H2).
  - exact (word_matches _ bef aft H H3).
  - exact (word_matches _ bef aft H H4).
Qed.

Lemma at_sign_only (c : char) :
  catom_test true (CLit at_sign) c = true -> c = at_sign.
Proof.
  cbn [catom_test variants existsb]. unfold char_eqb, to_upper, to_lower,
    is_lower, is_upper, in_range, at_sign, ch. cbn [N_of_ascii].
  change (N_of_ascii "@") with 64%N.
  rewrite !orb_true_iff, !N.eqb_eq.
  intros [H|[H|[H|H]]]; [symmetry; exact H | | | discriminate].
  - destruct (97 <=? c)%N eqn:H1; destruct (c <=? 122)%N eqn:H2; simpl in H;
      try (symmetry; exact H).
    apply N.leb_le in H1. lia.
  - destruct (65 <=? c)%N eqn:H1; destruct (c <=? 90)%N eqn:H2; simpl in H;
      try (symmetry; exact H).
    apply N.leb_le in H1. lia.
Qed.

Lemma guarded_suffix (a b : text) : guarded (a ++ b) = true -> guarded b = true.
Proof.
  induction a as [|c a IH]; [tauto|].
  cbn [app guarded]. intros H. apply andb_true_iff in H. apply IH, H.
Qed.

Lemma guarded_reaches (p e : pos) :
  reaches p e -> guarded (after p) = true -> guarded (after e) = true.
Proof.
  intros [consumed [_ Ha]] H. rewrite Ha in H.
  exact (guarded_suffix _ _ H).
Qed.

(** A pattern of the shape [r0 r1 @ (?! look) tail] cannot match in a
    guarded text when the look-ahead recognises the institutional words. *)
Lemma guarded_shape_fails (r0 r1 tail : regex) (p : pos) :
  guarded (after p) = true ->
  matcher true
    (RSeq r0 (RSeq r1 (RSeq (RAtom (CLit at_sign))
       (RSeq (RNegLook institutional) tail)))) p = [].
Proof.
  intros Hg.
  change (flat_map
            (fun p0 => flat_map
               (fun p1 => flat_map
                  (fun p2 => flat_map (matcher true tail)
                               (matcher true (RNegLook institutional) p2))
                  (matcher true (RAtom (CLit at_sign)) p1))
               (matcher true r1 p0))
            (matcher true r0 p) = []).
  apply flat_map_nil. intros p0 H0.
  apply matcher_reaches in H0. pose proof (guarded_reaches _ _ H0 Hg) as Hg0.
  apply flat_map_nil. intros p1 H1.
  apply matcher_reaches in H1. pose proof (guarded_reaches _ _ H1 Hg0) as Hg1.
  apply flat_map_nil. intros p2 H2.
  destruct p1 as [bef1 [|c aft1]]; [destruct H2|].
  cbn [matcher after before] in H2.
  destruct (catom_test true (CLit at_sign) c) eqn:Hc; [|destruct H2].
  destruct H2 as [<-|[]].
  apply at_sign_only in Hc. subst c.
  cbn [after guarded] in Hg1. apply andb_true_iff in Hg1.
  destruct Hg1 as [Hpre _].
  unfold char_eqb in Hpre. rewrite N.eqb_refl in Hpre. simpl in Hpre.
  pose proof (institutional_matches (at_sign :: bef1) aft1 Hpre) as Hm.
  cbn [matcher].
  destruct (matcher true institutional (mkPos (at_sign :: bef1) aft1));
    [contradiction Hm; reflexivity | reflexivity].
Qed.

Lemma personalEmail_matcher_fails (p : pos) :
  guarded (after p) = true ->
  matcher (ignoreCase personalEmail_re) (source personalEmail_re) p = [].
Proof. intros H. exact (guarded_shape_fails _ _ _ p H). Qed.

Lemma search_unfold (ic : bool) (r : regex) (bef aft : text) :
  search ic r bef aft =
  match matcher ic r (mkPos bef aft) with
  | e :: _ => Some (mkPos bef aft, e)
  | [] =>
    match aft with
    | c :: aft' => search ic r (c :: bef) aft'
    | [] => None
    end
  end.
Proof. destruct aft; reflexivity. Qed.

Lemma personalEmail_search_fails (aft : text) :
  forall bef,
    guarded aft = true ->
    search (ignoreCase personalEmail_re) (source personalEmail_re) bef aft
    = None.
Proof.
  induction aft as [|c aft IH]; intros bef Hg; rewrite search_unfold;
    rewrite personalEmail_matcher_fails by exact Hg; [reflexivity|].
  apply IH. cbn [guarded] in Hg. apply andb_true_iff in Hg. apply Hg.
Qed.

Lemma personalEmail_exec_fails (str : text) :
  guarded str = true -> RegExpBuiltinExec personalEmail_re str 0 = (None, 0).
Proof.
  intros Hg. unfold RegExpBuiltinExec.
  change (global personalEmail_re) with true. cbv iota zeta.
  change (length str <? 0) with false. cbv iota.
  change (rev (firstn 0 str)) with (@nil char).
  change (skipn 0 str) with str.
  rewrite personalEmail_search_fails by exact Hg. reflexivity.
Qed.

Lemma personalEmail_no_match (str : text) (li : nat) :
  guarded str = true ->
  string_match str personalEmail_re li = (None, 0).
Proof.
  intros Hg. unfold string_match.
  change (global personalEmail_re) with true. cbv iota.
  rewrite Nat.add_comm.
  change (match_loop (2 + length str) personalEmail_re str 0 []) with
    (match RegExpBuiltinExec personalEmail_re str 0 with
     | (None, lastIndex') => Some (rev (@nil text), lastIndex')
     | (Some matchStr, lastIndex') =>
       match_loop (1 + length str) personalEmail_re str
         match matchStr with [] => S lastIndex' | _ :: _ => lastIndex' end
         [matchStr]
     end).
  rewrite personalEmail_exec_fails by exact Hg. reflexivity.
Qed.

Lemma pushed_type (str : text) (ty : detector) (pattern : RegExp)
    (v : violation) :
  In v (pushed str (ty, pattern)) -> type v = ty.
Proof.
  unfold pushed, detect_entry, bind, text_match, ret.
  destruct (string_match str pattern (initial_patterns ty)) as [[matches|] l];
    simpl; [|intros []].
  destruct (detector_eqb ty fullName).
  - destruct (0 <? length (filter not_medical_term matches));
      [intros [<-|[]]; reflexivity | intros []].
  - intros [<-|[]]. reflexivity.
Qed.

(** In a guarded text [detectPHI] reports no [personalEmail] violation. *)
Lemma guarded_no_personalEmail (str : text) (st : regex_state)
    (phi : list violation) (v : violation) :
  guarded str = true ->
  fst (detectPHI str st) = Some phi -> In v phi -> type v <> personalEmail.
Proof.
  intros Hg Hphi Hin Hty. rewrite detectPHI_fst in Hphi.
  destruct (detect_In_pushed _ _ _ Hphi Hin) as [[ty pattern] [Hentry Hp]].
  pose proof (pushed_type _ _ _ _ Hp) as Ht. rewrite Hty in Ht. subst ty.
  assert (pattern = personalEmail_re) as ->.
  { unfold PHI_PATTERNS in Hentry. simpl in Hentry.
    repeat (destruct Hentry as [Hentry|Hentry];
            [inversion Hentry; try reflexivity|]).
    destruct Hentry. }
  unfold pushed, detect_entry, bind, text_match, ret in Hp.
  rewrite (personalEmail_no_match str _ Hg) in Hp. destruct Hp.
Qed.

Lemma guarded_without_at (s : text) :
  existsb (char_eqb at_sign) s = false -> guarded s = true.
Proof.
  induction s as [|c s IH]; [reflexivity|].
  cbn [existsb guarded]. intros H. apply orb_false_iff in H.
  destruct H as [Hc Hs]. unfold char_eqb in *.
  rewrite N.eqb_sym, Hc, IH by exact Hs. reflexivity.
Qed.

Lemma guarded_address (local domain : text) :
  existsb (char_eqb at_sign) local = false ->
  existsb (char_eqb at_sign) domain = false ->
  institutional_prefix domain = true ->
  guarded (local ++ at_sign :: domain) = true.
Proof.
  intros Hl Hd Hp. induction local as [|c local IH].
  - cbn [app guarded]. rewrite Hp, orb_true_r, guarded_without_at by exact Hd.
    reflexivity.
  - cbn [existsb] in Hl. apply orb_false_iff in Hl. destruct Hl as [Hc Hl].
    cbn [app guarded]. unfold char_eqb in *.
    rewrite N.eqb_sym, Hc, IH by exact Hl. reflexivity.
Qed.

(** C10. For every address [local@domain] (one [@]) whose domain part
    begins, in any letter case, with [hospital], [healthsystem], [medical]
    or [nicu], the expression [personalEmail] has no match and [detectPHI]
    reports no [personalEmail] violation: the allow-list of the look-ahead
    is a test on the beginning of the domain, so an address at
    [hospitality.com] or [medicalspa.net] is never flagged either. *)
Theorem institutional_prefix_never_flagged :
  forall (local domain : text) (st : regex_state),
    existsb (char_eqb at_sign) local = false ->
    existsb (char_eqb at_sign) domain = false ->
    institutional_prefix domain = true ->
    fst (text_match (local ++ at_sign :: domain) personalEmail
           personalEmail_re st) = None
    /\ forall phi v,
        fst (detectPHI (local ++ at_sign :: domain) st) = Some phi ->
        In v phi -> type v <> personalEmail.
Proof.
  intros local domain st Hl Hd Hp.
  pose proof (guarded_address local domain Hl Hd Hp) as Hg. split.
  - unfold text_match. rewrite (personalEmail_no_match _ _ Hg). reflexivity.
  - intros phi v. apply guarded_no_personalEmail. exact Hg.
Qed.

(** The statement for [info@hospitality.com]. *)
Lemma institutional_prefix_never_flagged_witness :
  fst (text_match (u "info" ++ at_sign :: u "hospitality.com") personalEmail
         personalEmail_re initial_patterns) = None
  /\ forall phi v,
      fst (detectPHI (u "info" ++ at_sign :: u "hospitality.com")
             initial_patterns) = Some phi ->
      In v phi -> type v <> personalEmail.
Proof.
  apply (institutional_prefix_never_flagged (u "info") (u "hospitality.com")
           initial_patterns); reflexivity.
Defined.

Example medicalspa_not_flagged :
  detect (u "front.desk@medicalspa.net") = None.
Proof. vm_compute. reflexivity. Qed.

(* ================================================================== *)
(** ** The triggers *)
(* ================================================================== *)

(** What a handler run amounts to. *)
Lemma handle_run (f : faults) (ev : event) (context : params) (w : world) :
  handle f ev context w =
  let st' := snd (scanForPHI (committed ev) [] (patterns w)) in
  let entry := audit_of ev context in
  let fields := map field (findings_of (committed ev)) in
  if has_findings (committed ev) then
    if add_fails f then
      (Throw (FirestoreError (CallAdd entry)),
       mkWorld (Some (committed ev)) (phi_violations w)
         (issued w ++ [CallAdd entry]) st')
    else if match ev with
            | Created _ => delete_fails f
            | Updated _ _ => set_fails f
            end then
      (Throw (FirestoreError (corrective ev)),
       mkWorld (Some (committed ev)) (phi_violations w ++ [entry])
         ((issued w ++ [CallAdd entry]) ++ [corrective ev]) st')
    else
      (Ok match ev with
          | Created _ => blocked (u "PHI detected") fields
          | Updated _ _ => rolled_back (u "PHI detected in update") fields
          end,
       mkWorld match ev with
               | Created _ => None
               | Updated oldData _ => Some oldData
               end
         (phi_violations w ++ [entry])
         ((issued w ++ [CallAdd entry]) ++ [corrective ev]) st')
  else
    (Ok approved,
     mkWorld (Some (committed ev)) (phi_violations w) (issued w) st').
Proof.
  unfold has_findings, audit_of, findings_of.
  destruct ev as [data|oldData newData];
    unfold handle, on_create, on_update, validateBabyData,
      validateBabyDataUpdate, io_bind, with_patterns, commit;
    cbn [patterns committed corrective];
    match goal with
    | |- context [scanForPHI ?d [] (patterns w)] =>
      pose proof (scanForPHI_fst d [] (patterns w)) as H1;
      pose proof (scanForPHI_fst d [] initial_patterns) as H2;
      destruct (scanForPHI d [] (patterns w)) as [fs st1];
      cbn [fst snd] in *; rewrite H2, <- H1
    end;
    (destruct (0 <? length fs); [|reflexivity]);
    unfold add_violation, ref_delete, ref_set, issue, io_ret;
    cbn [baby_doc phi_violations issued patterns];
    destruct (add_fails f); try reflexivity.
  - destruct (delete_fails f); reflexivity.
  - destruct (set_fails f); reflexivity.
Qed.

(** ** C1 *)




(** ** C2 *)

(** The calls of a handler invocation that detects findings: the audit
    write first, which the handler awaits, then the corrective call (the
    delete on create, the overwrite with the prior value, [merge: false], on
    update), and none when the audit write is rejected. *)
Lemma audit_issued_before_corrective :
  forall (f : faults) (ev : event) (context : params) (w : world),
    has_findings (committed ev) = true ->
    issued (snd (handle f ev context w)) =
    issued w
    ++ CallAdd (audit_of ev context)
       :: (if add_fails f then [] else [corrective ev]).
Proof.
  intros f ev context w Hf. rewrite handle_run. cbv zeta. rewrite Hf.
  destruct (add_fails f); [reflexivity|].
  destruct ev; [destruct (delete_fails f) | destruct (set_fails f)];
    cbn [snd issued]; rewrite <- app_assoc; reflexivity.
Qed.

(** C2 fails on the code. For a record created with a phone number the
    handler issues the audit write first and the delete after it: the audit
    entry, whose action reads "deleted", is written while the record is
    still in the store, and no audit write follows the corrective call. *)
Theorem audit_issued_before_delete :
  let run := handle no_faults (Created phone_note) some_params empty_world in
  issued (snd run)
  = [CallAdd (audit_of (Created phone_note) some_params); CallDelete]
  /\ audit_follows_corrective false (issued (snd run)) = false.
Proof. vm_compute. split; reflexivity. Qed.

(** ** C4 *)

(** A merge would not do: merging the prior version into the stored record
    keeps the tainted field the prior version does not have. *)
Example merge_would_keep_tainted_field :
  has_findings
    (set_result clean_note true
       (Some (VObject [(u "note", VString (u "fed well, stable"));
                       (u "contact", VString (u "555-123-4567"))])))
  = true.
Proof. vm_compute. reflexivity. Qed.

(** The update handler, for every pair of a prior and a new value: when the
    new value has no finding the handler approves, issues no write and the
    stored record remains the new value, whatever the prior value is; when
    the new value has findings and the handler runs to completion, the
    stored record is the prior value itself, written by a [set] with
    [merge: false] of the prior value; and the handler does run to
    completion when its two writes are accepted. *)
Lemma update_rollback_is_full_replace :
  forall (f : faults) (oldData newData : value) (context : params)
         (w : world),
    let run := on_update f oldData newData context w in
    (has_findings newData = false ->
       fst run = Ok approved
       /\ baby_doc (snd run) = Some newData
       /\ issued (snd run) = issued w)
    /\ (has_findings newData = true ->
        forall resp, fst run = Ok resp ->
          baby_doc (snd run) = Some oldData
          /\ issued (snd run) =
             issued w ++ [CallAdd (audit_of (Updated oldData newData) context);
                          CallSet oldData false])
    /\ (has_findings newData = true ->
        add_fails f = false -> set_fails f = false ->
        fst run =
          Ok (rolled_back (u "PHI detected in update")
                (map field (findings_of newData)))
        /\ baby_doc (snd run) = Some oldData).
Proof.
  intros f oldData newData context w run. subst run.
  change (on_update f oldData newData context w)
    with (handle f (Updated oldData newData) context w).
  rewrite handle_run. cbv zeta. cbn [committed corrective].
  split; [|split].
  - intros ->. repeat split; reflexivity.
  - intros -> resp. destruct (add_fails f); [discriminate|].
    destruct (set_fails f); [discriminate|].
    intros _. cbn [snd baby_doc issued]. rewrite <- app_assoc.
    split; reflexivity.
  - intros -> -> ->. split; reflexivity.
Qed.

(** The overwrite is not issued when the audit write is rejected, whatever
    the store would have answered to it: the handler ends with the error of
    the audit write and the store keeps the new value. *)
Lemma rollback_waits_for_audit :
  forall (f : faults) (oldData newData : value) (context : params)
         (w : world),
    has_findings newData = true ->
    add_fails f = true ->
    let run := on_update f oldData newData context w in
    fst run
    = Throw (FirestoreError (CallAdd (audit_of (Updated oldData newData)
                                        context)))
    /\ issued (snd run)
       = issued w ++ [CallAdd (audit_of (Updated oldData newData) context)]
    /\ baby_doc (snd run) = Some newData.
Proof.
  intros f oldData newData context w Hf Ha run. subst run.
  change (on_update f oldData newData context w)
    with (handle f (Updated oldData newData) context w).
  rewrite handle_run. cbv zeta. cbn [committed]. rewrite Hf, Ha.
  repeat split; reflexivity.
Qed.

(** C4 fails on the code. A clean record is updated with a phone number and
    the audit write of the handler is rejected, the store being ready to
    accept the overwrite: the handler ends with the error of the audit
    write, never issues the [set], and the stored record remains the new
    value with its finding, not the prior value. *)
Theorem rollback_skipped_when_audit_rejected :
  let run := on_update (mkFaults true false false) clean_note phone_note
               some_params empty_world in
  fst run
  = Throw (FirestoreError
             (CallAdd (audit_of (Updated clean_note phone_note) some_params)))
  /\ issued (snd run)
     = [CallAdd (audit_of (Updated clean_note phone_note) some_params)]
  /\ baby_doc (snd run) = Some phone_note
  /\ has_findings phone_note = true
  /\ phone_note <> clean_note.
Proof. vm_compute. repeat split; try reflexivity. discriminate. Qed.

(** ** C3 *)

(** Whenever an authenticated call supplies both identifiers and the shift
    document does not exist, the [not-found] error thrown inside the [try]
    block is caught by its [catch] clause and the call is rejected with an
    [internal] error instead. *)
Lemma missing_shift_rejected_as_internal :
  forall (number_text : Z -> text) (conversion_error : text)
         (render : value -> list value -> text + text)
         (now_iso : text) (server_time : value) (fs : firestore)
         (data : value) (context : call_context) (uid path : text),
    auth context = Some uid ->
    falsy (destructured data (u "appId")) = false ->
    falsy (destructured data (u "shiftId")) = false ->
    shift_path number_text data uid = Some path ->
    doc_get fs path = Snapshot None ->
    generateShiftSummary number_text conversion_error render now_iso
      server_time fs data context =
    (inr (HttpsRejection
            (mkHttpsError internal (u "Failed to generate shift summary")
               (Some (u "Shift not found")))), []).
Proof.
  intros number_text conversion_error render now_iso server_time fs data
    context uid path Hauth Ha Hs Hpath Hdoc.
  unfold generateShiftSummary, summary_body. rewrite Hauth, Ha, Hs.
  cbn [orb]. unfold shift_path in Hpath.
  destruct (template number_text (destructured data (u "shiftId")))
    as [shiftId_|]; [|discriminate].
  destruct (template number_text (destructured data (u "appId")))
    as [appId_|]; [|discriminate].
  assert (Hp : u "artifacts/" ++ appId_ ++ u "/users/" ++ uid
               ++ u "/nicu_shifts/" ++ shiftId_ = path) by congruence.
  cbv zeta. rewrite Hp, Hdoc.
  destruct data; [discriminate Ha| | | | |]; reflexivity.
Qed.

(** C3 fails on the code. An authenticated call with both identifiers for a
    shift that does not exist is rejected with the code [internal] (message
    "Failed to generate shift summary", the text "Shift not found" only in
    the details), not with [not-found]. *)
Theorem missing_shift_not_reported_not_found :
  forall (number_text : Z -> text) (conversion_error : text)
         (render : value -> list value -> text + text)
         (now_iso : text) (server_time : value),
    fst (generateShiftSummary number_text conversion_error render now_iso
           server_time no_documents
           (VObject [(u "appId", VString (u "default-nicu-app"));
                     (u "shiftId", VString (u "shift1"))])
           (mkContext (Some (u "nurse1"))))
    = inr (HttpsRejection
             (mkHttpsError internal (u "Failed to generate shift summary")
                (Some (u "Shift not found")))).
Proof.
  intros number_text conversion_error render now_iso server_time.
  erewrite missing_shift_rejected_as_internal; reflexivity.
Qed.

(* ================================================================== *)
(** * Further properties of the code *)
(* ================================================================== *)

(** ** detectPHI *)

(** What one entry of the table pushes: nothing, or one violation of its
    own key with a positive count. *)
Lemma pushed_shape (str : text) (ty : detector) (pattern : RegExp) :
  pushed str (ty, pattern) = []
  \/ exists v, pushed str (ty, pattern) = [v] /\ type v = ty /\ 1 <= count v.
Proof.
  unfold pushed, detect_entry, bind, text_match, ret.
  destruct (string_match str pattern (initial_patterns ty)) as [[matches|] l] eqn:Hm;
    simpl; [|left; reflexivity].
  destruct (detector_eqb ty fullName).
  - destruct (filter not_medical_term matches) as [|m0 rest];
      simpl; [left; reflexivity|].
    right. eexists. split; [reflexivity|]. simpl. split; [reflexivity|lia].
  - right. eexists. split; [reflexivity|]. simpl. split; [reflexivity|].
    destruct matches as [|m0 rest]; [|simpl; lia].
    exfalso. unfold string_match in Hm. destruct (global pattern).
    + destruct (match_loop _ _ _ _ _) as [[[|a A] li]|]; discriminate.
    + destruct (RegExpBuiltinExec pattern str _) as [[m|] li]; discriminate.
Qed.

Lemma pushed_ranks (str : text) (entries : list (detector * RegExp)) :
  StronglySorted lt (map (fun e => rank (fst e)) entries) ->
  StronglySorted lt (map (fun v => rank (type v)) (flat_map (pushed str) entries)).
Proof.
  induction entries as [|[ty pattern] entries IH]; intros Hs; [constructor|].
  cbn [map fst] in Hs. apply StronglySorted_inv in Hs. destruct Hs as [Hrest Hty].
  cbn [flat_map]. destruct (pushed_shape str ty pattern) as [->|[v [-> [Hv _]]]].
  - apply IH. exact Hrest.
  - cbn [app map]. constructor; [apply IH; exact Hrest|].
    rewrite Hv. apply Forall_forall. intros n Hn.
    apply in_map_iff in Hn. destruct Hn as [v' [<- Hv']].
    apply in_flat_map in Hv'. destruct Hv' as [[ty' pattern'] [He Hp]].
    rewrite (pushed_type _ _ _ _ Hp).
    rewrite Forall_forall in Hty. apply Hty.
    apply in_map_iff. exists (ty', pattern'). split; [reflexivity|exact He].
Qed.

(** X1. A result of [detectPHI] that is not [null] is a non-empty list
    holding at most one violation per detector, in the order of the table
    [PHI_PATTERNS], each with a count of at least 1; for the empty text the
    result is [null]. *)
Theorem detectPHI_result_shape :
  forall (str : text) (st : regex_state) (phi : list violation),
    fst (detectPHI str st) = Some phi ->
    str <> []
    /\ phi <> []
    /\ StronglySorted lt (map (fun v => rank (type v)) phi)
    /\ forall v, In v phi -> 1 <= count v.
Proof.
  intros str st phi H. rewrite detectPHI_fst in H.
  assert (Hstr : str <> []) by (intros ->; discriminate H).
  split; [exact Hstr|].
  pose proof H as H'. rewrite detect_unfold in H'.
  destruct str as [|c str]; [contradiction Hstr; reflexivity|].
  cbv zeta in H'.
  remember (flat_map (pushed (c :: str)) PHI_PATTERNS) as vs eqn:Hvs.
  destruct vs as [|v0 vs]; [discriminate|]. injection H' as <-.
  split; [discriminate|]. split.
  - rewrite Hvs. apply pushed_ranks. unfold PHI_PATTERNS. simpl.
    repeat (constructor; [|repeat constructor; lia]). constructor.
  - intros v Hin. destruct (detect_In_pushed _ _ _ H Hin) as [[ty pattern] [_ Hp]].
    destruct (pushed_shape (c :: str) ty pattern) as [E|[v' [E [_ Hc]]]];
      rewrite E in Hp; [destruct Hp|].
    destruct Hp as [<-|[]]. exact Hc.
Qed.

(** The statement at a text with a name and a date of birth. *)
Lemma detectPHI_result_shape_witness :
  u "Mother: Jane Smith, DOB 01/15/1990" <> []
  /\ [mkViolation fullName 1 (u "Jane Smith...");
      mkViolation dob 1 (u "DOB 01/15/1990...")] <> []
  /\ StronglySorted lt
       (map (fun v => rank (type v))
          [mkViolation fullName 1 (u "Jane Smith...");
           mkViolation dob 1 (u "DOB 01/15/1990...")])
  /\ forall v,
      In v [mkViolation fullName 1 (u "Jane Smith...");
            mkViolation dob 1 (u "DOB 01/15/1990...")] -> 1 <= count v.
Proof.
  apply (detectPHI_result_shape (u "Mother: Jane Smith, DOB 01/15/1990")
           initial_patterns).
  vm_compute. reflexivity.
Defined.

Lemma detect_entry_snd (str : text) (vs : list violation) (ty : detector)
    (pattern : RegExp) (st : regex_state) :
  global pattern = true ->
  snd (detect_entry str vs (ty, pattern) st) = set_lastIndex ty 0 st.
Proof.
  intros Hg. unfold detect_entry, bind, text_match, ret.
  pose proof (string_match_resets str pattern (st ty) Hg) as H.
  destruct (string_match str pattern (st ty)) as [m li]. simpl in H. subst li.
  reflexivity.
Qed.

Lemma detect_loop_snd (str : text) (entries : list (detector * RegExp)) :
  Forall (fun e => global (snd e) = true) entries ->
  forall vs st d,
    snd (detect_loop str entries vs st) d =
    if existsb (fun e => detector_eqb (fst e) d) entries then 0 else st d.
Proof.
  induction 1 as [|[ty pattern] entries Hg _ IH]; intros vs st d; [reflexivity|].
  cbn [detect_loop]. unfold bind.
  pose proof (detect_entry_snd str vs ty pattern st Hg) as Hs.
  destruct (detect_entry str vs (ty, pattern) st) as [vs' st']. simpl in Hs.
  subst st'. rewrite IH. cbn [existsb fst].
  destruct (existsb _ entries); [rewrite orb_true_r; reflexivity|].
  rewrite orb_false_r. reflexivity.
Qed.

(** X2. After [detectPHI] has run on a non-empty text, the [lastIndex] of
    every expression of the table is 0, whatever it was before; on the empty
    text the table is not touched. *)
Theorem detectPHI_resets_lastIndex :
  forall (str : text) (st : regex_state) (d : detector),
    snd (detectPHI [] st) d = st d
    /\ (str <> [] -> snd (detectPHI str st) d = 0).
Proof.
  intros str st d. split; [reflexivity|]. intros Hne.
  destruct str as [|c str]; [contradiction Hne; reflexivity|].
  unfold detectPHI, bind, ret.
  pose proof (detect_loop_snd (c :: str) PHI_PATTERNS) as H.
  destruct (detect_loop (c :: str) PHI_PATTERNS [] st) as [vs st'] eqn:E.
  cbn [snd]. change st' with (snd (vs, st')). rewrite <- E, H.
  - destruct d; reflexivity.
  - unfold PHI_PATTERNS. repeat constructor.
Qed.

(** The statement for a table left in the middle of a text. *)
Lemma detectPHI_resets_lastIndex_witness :
  snd (detectPHI (u "call 555-123-4567")
         (set_lastIndex phone 7 initial_patterns)) phone = 0.
Proof.
  apply (proj2 (detectPHI_resets_lastIndex (u "call 555-123-4567")
                  (set_lastIndex phone 7 initial_patterns) phone)).
  discriminate.
Defined.

(** ** Lengths of matches *)

Lemma rep_length (test : char -> bool) (aft : text) :
  forall min max bef e,
    In e (rep test min max bef aft) ->
    length bef + min <= endIndex e
    /\ forall k, max = Some k -> endIndex e <= length bef + k.
Proof.
  induction aft as [|c aft IH]; intros min max bef e Hin.
  - assert (Hstop : In e match min with O => [mkPos bef []] | S _ => [] end).
    { simpl in Hin. destruct max as [[|k]|]; exact Hin. }
    destruct min; simpl in Hstop; [|contradiction].
    destruct Hstop as [<-|[]]. unfold endIndex; simpl. split; [lia|intros; lia].
  - assert (Hcases :
      (max <> Some 0 /\
       In e (rep test (Nat.pred min) (option_map Nat.pred max) (c :: bef) aft))
      \/ In e match min with O => [mkPos bef (c :: aft)] | S _ => [] end).
    { simpl in Hin. destruct max as [[|k]|].
      - right; exact Hin.
      - destruct (test c); [|right; exact Hin].
        apply in_app_or in Hin. destruct Hin; [left; split; [discriminate|assumption]|right; assumption].
      - destruct (test c); [|right; exact Hin].
        apply in_app_or in Hin. destruct Hin; [left; split; [discriminate|assumption]|right; assumption]. }
    destruct Hcases as [[Hmax Hrec]|Hstop].
    + apply IH in Hrec. destruct Hrec as [Hlo Hhi]. simpl in Hlo, Hhi.
      split; [lia|]. intros k ->.
      destruct k as [|k]; [contradiction Hmax; reflexivity|].
      specialize (Hhi k eq_refl). lia.
    + destruct min; simpl in Hstop; [|contradiction].
      destruct Hstop as [<-|[]]. unfold endIndex; simpl. split; [lia|intros; lia].
Qed.

(** A match of a pattern consumes between [min_len] and [max_len] code
    units. *)
Lemma matcher_length (ic : bool) (r : regex) :
  forall p e,
    In e (matcher ic r p) ->
    endIndex p + min_len r <= endIndex e
    /\ forall k, max_len r = Some k -> endIndex e <= endIndex p + k.
Proof.
  induction r as [|a|a min max| |r1 IH1 r2 IH2|r1 IH1 r2 IH2|r1 IH1|r1 IH1];
    intros p e Hin; simpl in Hin; cbn [min_len max_len].
  - destruct Hin as [<-|[]]. split; [lia|intros; lia].
  - destruct p as [bef [|c aft]]; simpl in Hin; [contradiction|].
    destruct (catom_test ic a c); [|contradiction].
    destruct Hin as [<-|[]]. unfold endIndex; simpl.
    split; [lia|]. intros k Hk; injection Hk as <-; lia.
  - destruct p as [bef aft]. apply rep_length in Hin. exact Hin.
  - destruct (xorb _ _); [|contradiction].
    destruct Hin as [<-|[]]. split; [lia|intros; lia].
  - apply in_flat_map in Hin. destruct Hin as [q [Hq He]].
    apply IH1 in Hq. apply IH2 in He.
    destruct Hq as [Hq1 Hq2], He as [He1 He2]. split; [lia|].
    intros k Hk. destruct (max_len r1) as [a1|]; [|discriminate].
    destruct (max_len r2) as [a2|]; [|discriminate]. injection Hk as <-.
    specialize (Hq2 a1 eq_refl). specialize (He2 a2 eq_refl). lia.
  - apply in_app_or in Hin. destruct Hin as [H|H].
    + apply IH1 in H. destruct H as [H1 H2]. split; [lia|].
      intros k Hk. destruct (max_len r1) as [a1|]; [|discriminate].
      destruct (max_len r2) as [a2|]; [|discriminate]. injection Hk as <-.
      specialize (H2 a1 eq_refl). lia.
    + apply IH2 in H. destruct H as [H1 H2]. split; [lia|].
      intros k Hk. destruct (max_len r1) as [a1|]; [|discriminate].
      destruct (max_len r2) as [a2|]; [|discriminate]. injection Hk as <-.
      specialize (H2 a2 eq_refl). lia.
  - apply IH1. exact Hin.
  - destruct (matcher ic r1 p); [|contradiction].
    destruct Hin as [<-|[]]. split; [lia|intros; lia].
Qed.

Lemma search_In (ic : bool) (r : regex) (aft : text) :
  forall bef s e,
    search ic r bef aft = Some (s, e) -> In e (matcher ic r s).
Proof.
  induction aft as [|c aft IH]; intros bef s e H; rewrite search_unfold in H.
  - destruct (matcher ic r (mkPos bef [])) as [|e' l] eqn:Hm; [discriminate|].
    injection H as <- <-. rewrite Hm. left; reflexivity.
  - destruct (matcher ic r (mkPos bef (c :: aft))) as [|e' l] eqn:Hm.
    + apply IH in H. exact H.
    + injection H as <- <-. rewrite Hm. left; reflexivity.
Qed.

Lemma length_substring (i j : nat) (s : text) :
  i <= j -> j <= length s -> length (substring i j s) = j - i.
Proof.
  intros Hij Hj. unfold substring. rewrite length_firstn, length_skipn. lia.
Qed.

(** What RegExpBuiltinExec returns is a substring of the subject whose
    length is within the bounds of the pattern. *)
Lemma exec_match (R : RegExp) (str : text) (li : nat) (m : text) (li' : nat) :
  RegExpBuiltinExec R str li = (Some m, li') ->
  (exists i j, m = substring i j str)
  /\ min_len (source R) <= length m
  /\ forall k, max_len (source R) = Some k -> length m <= k.
Proof.
  unfold RegExpBuiltinExec. intros H.
  set (start := if global R then li else 0) in *.
  destruct (length str <? start) eqn:Hlt; [discriminate|].
  apply Nat.ltb_ge in Hlt.
  destruct (search _ _ _ _) as [[s e]|] eqn:Hs; [|discriminate].
  injection H as <- _.
  pose proof (search_bounds _ _ _ _ _ _ Hs) as [Hb1 [Hb2 Hb3]].
  rewrite length_rev, length_firstn in Hb1, Hb3. rewrite length_skipn in Hb3.
  apply search_In in Hs. apply matcher_length in Hs. destruct Hs as [Hlo Hhi].
  split; [eauto|].
  rewrite length_substring by lia. split; [lia|].
  intros k Hk. specialize (Hhi k Hk). lia.
Qed.

Lemma match_loop_all (P : text -> Prop) (R : RegExp) (str : text) :
  (forall li m li', RegExpBuiltinExec R str li = (Some m, li') -> P m) ->
  forall fuel li A matches li',
    Forall P A ->
    match_loop fuel R str li A = Some (matches, li') ->
    Forall P matches.
Proof.
  intros Hexec. induction fuel as [|fuel IH]; intros li A matches li' HA H;
    [discriminate|].
  simpl in H. destruct (RegExpBuiltinExec R str li) as [[m0|] l0] eqn:He.
  - eapply IH; [|exact H]. constructor; [|exact HA].
    eapply Hexec; exact He.
  - injection H as <- _. apply Forall_rev. exact HA.
Qed.

Lemma string_match_all (P : text -> Prop) (str : text) (R : RegExp) (li : nat)
    (matches : list text) :
  (forall li m li', RegExpBuiltinExec R str li = (Some m, li') -> P m) ->
  fst (string_match str R li) = Some matches ->
  Forall P matches.
Proof.
  intros Hexec. unfold string_match. destruct (global R).
  - destruct (match_loop _ _ _ _ _) as [[ms l]|] eqn:Hl; [|discriminate].
    intros H.
    assert (ms = matches)
      by (destruct ms; [discriminate|injection H as <-; reflexivity]).
    subst ms. eapply match_loop_all; [exact Hexec| |exact Hl]. constructor.
  - destruct (RegExpBuiltinExec R str li) as [[m|] l] eqn:He; [|discriminate].
    simpl. intros H; injection H as <-. constructor; [|constructor].
    eapply Hexec; exact He.
Qed.

Lemma table_entry (ty : detector) (pattern : RegExp) :
  In (ty, pattern) PHI_PATTERNS ->
  pattern =
  match ty with
  | fullName => fullName_re | mrn => mrn_re | dob => dob_re | ssn => ssn_re
  | phone => phone_re | personalEmail => personalEmail_re
  | exactDate => exactDate_re | address => address_re
  end.
Proof.
  unfold PHI_PATTERNS. simpl.
  intros H.
  repeat (destruct H as [H|H]; [injection H as <- <-; reflexivity|]).
  destruct H.
Qed.

(** A violation of a result of [detectPHI] was pushed by the entry of its
    type. *)
Lemma detect_In_typed (str : text) (phi : list violation) (v : violation) :
  detect str = Some phi -> In v phi ->
  exists pattern,
    In (type v, pattern) PHI_PATTERNS /\ In v (pushed str (type v, pattern)).
Proof.
  intros H Hin.
  destruct (detect_In_pushed _ _ _ H Hin) as [[ty pattern] [He Hp]].
  rewrite (pushed_type _ _ _ _ Hp). exists pattern. split; assumption.
Qed.

Lemma match_loop_keeps (R : RegExp) (str : text) :
  forall fuel li A matches li',
    match_loop fuel R str li A = Some (matches, li') ->
    exists more, matches = rev A ++ more.
Proof.
  induction fuel as [|fuel IH]; intros li A matches li' H; [discriminate|].
  simpl in H. destruct (RegExpBuiltinExec R str li) as [[m0|] l0].
  - apply IH in H. destruct H as [more ->]. exists (m0 :: more).
    cbn [rev]. rewrite <- app_assoc. reflexivity.
  - injection H as <- _. exists []. rewrite app_nil_r. reflexivity.
Qed.

(** The first element of the array of [match] is the match found by the
    search from the start of the text. *)
Lemma string_match_first (str : text) (R : RegExp) (m : text)
    (rest : list text) :
  fst (string_match str R 0) = Some (m :: rest) ->
  fst (RegExpBuiltinExec R str 0) = Some m.
Proof.
  unfold string_match. destruct (global R).
  - replace (length str + 2) with (S (S (length str))) by lia.
    set (fuel := S (length str)). cbn [match_loop].
    destruct (RegExpBuiltinExec R str 0) as [[m0|] l0]; cbn [fst].
    + destruct (match_loop fuel _ _ _ _) as [[ms l]|] eqn:Hl; [|discriminate].
      apply match_loop_keeps in Hl. destruct Hl as [more ->].
      cbn [rev app]. intros H. injection H as <- _. reflexivity.
    + cbn [rev]. discriminate.
  - destruct (RegExpBuiltinExec R str 0) as [[m0|] l0]; cbn [fst];
      [|discriminate].
    intros H. injection H as <- _. reflexivity.
Qed.

Lemma all_matches_first (str : text) (d : detector) (m : text)
    (rest : list text) :
  all_matches str d = m :: rest ->
  fst (RegExpBuiltinExec (pattern_of d) str 0) = Some m.
Proof.
  unfold all_matches. intros H. apply (string_match_first str _ m rest).
  destruct (fst (string_match str (pattern_of d) 0)); [|discriminate].
  rewrite H. reflexivity.
Qed.

(** Every match of a pattern has a length within its bounds. *)
Lemma all_matches_length (str : text) (d : detector) (k : nat) :
  max_len (source (pattern_of d)) = Some k ->
  Forall (fun m => min_len (source (pattern_of d)) <= length m <= k)
    (all_matches str d).
Proof.
  intros Hmax. unfold all_matches.
  destruct (fst (string_match str (pattern_of d) 0)) as [matches|] eqn:Hm;
    [|constructor].
  eapply string_match_all; [|exact Hm].
  intros li m li' He. apply exec_match in He.
  destruct He as [_ [Hlo Hhi]]. specialize (Hhi k Hmax). lia.
Qed.

(** X3. The sample of a [phone] or [ssn] violation is never a truncation: it
    is the whole of the first match of the pattern in the text, the one the
    search from the start of the text finds, which has 10 to 12 code units
    for [phone] and 9 to 11 for [ssn], followed by "...".  The complete
    number that was matched first is what the violation, and the audit entry
    made of it, carries. *)
Theorem phone_ssn_sample_is_whole_match :
  forall (str : text) (st : regex_state) (phi : list violation)
         (v : violation),
    fst (detectPHI str st) = Some phi -> In v phi ->
    (type v = phone ->
       exists (m : text) (rest : list text),
         all_matches str phone = m :: rest
         /\ fst (RegExpBuiltinExec phone_re str 0) = Some m
         /\ sample v = m ++ u "..."
         /\ 10 <= length m <= 12)
    /\ (type v = ssn ->
       exists (m : text) (rest : list text),
         all_matches str ssn = m :: rest
         /\ fst (RegExpBuiltinExec ssn_re str 0) = Some m
         /\ sample v = m ++ u "..."
         /\ 9 <= length m <= 11).
Proof.
  intros str st phi v H Hin. rewrite detectPHI_fst in H.
  destruct (detect_first _ _ _ H Hin) as [m [rest [Hr [_ Hs]]]].
  split; intros Hty; rewrite Hty in Hr, Hs; cbn in Hr, Hs;
    exists m, rest; (split; [exact Hr|]).
  - split; [exact (all_matches_first str phone m rest Hr)|].
    pose proof (all_matches_length str phone 12 eq_refl) as Hall.
    rewrite Hr in Hall. apply Forall_inv in Hall. cbn in Hall.
    unfold substring0 in Hs. rewrite firstn_all2 in Hs by lia.
    split; [exact Hs|lia].
  - split; [exact (all_matches_first str ssn m rest Hr)|].
    pose proof (all_matches_length str ssn 11 eq_refl) as Hall.
    rewrite Hr in Hall. apply Forall_inv in Hall. cbn in Hall.
    unfold substring0 in Hs. rewrite firstn_all2 in Hs by lia.
    split; [exact Hs|lia].
Qed.

(** The statement at a text with two phone numbers. *)
Lemma phone_ssn_sample_is_whole_match_witness :
  exists (m : text) (rest : list text),
    all_matches (u "call 555-123-4567 or 555-987-6543") phone = m :: rest
    /\ fst (RegExpBuiltinExec phone_re
              (u "call 555-123-4567 or 555-987-6543") 0) = Some m
    /\ sample (mkViolation phone 2 (u "555-123-4567...")) = m ++ u "..."
    /\ 10 <= length m <= 12.
Proof.
  apply (proj1 (phone_ssn_sample_is_whole_match
                  (u "call 555-123-4567 or 555-987-6543")
                  initial_patterns [mkViolation phone 2 (u "555-123-4567...")]
                  (mkViolation phone 2 (u "555-123-4567..."))
                  ltac:(vm_compute; reflexivity)
                  (or_introl eq_refl))).
  reflexivity.
Defined.

(** ** Characters a detector cannot do without *)

Lemma none_of_suffix (test : char -> bool) (a b : text) :
  none_of test (a ++ b) = true -> none_of test b = true.
Proof.
  unfold none_of. rewrite forallb_app. intros H.
  apply andb_true_iff in H. apply H.
Qed.

Lemma none_of_reaches (test : char -> bool) (p e : pos) :
  reaches p e -> none_of test (after p) = true -> none_of test (after e) = true.
Proof.
  intros [consumed [_ Ha]] H. rewrite Ha in H.
  exact (none_of_suffix _ _ _ H).
Qed.

Lemma rep_needs (test needed : char -> bool) (n : nat) (max : option nat)
    (bef aft : text) :
  (forall c, test c = true -> needed c = true) ->
  none_of needed aft = true ->
  rep test (S n) max bef aft = [].
Proof.
  intros Himp Hnone. destruct aft as [|c aft].
  - simpl. destruct max as [[|k]|]; reflexivity.
  - cbn [none_of forallb] in Hnone. apply andb_true_iff in Hnone.
    destruct Hnone as [Hc _]. apply negb_true_iff in Hc.
    assert (Ht : test c = false).
    { destruct (test c) eqn:E; [|reflexivity].
      apply Himp in E. rewrite E in Hc. discriminate. }
    simpl. rewrite Ht. destruct max as [[|k]|]; reflexivity.
Qed.

Lemma atom_needs (ic : bool) (a : catom) (needed : char -> bool) (p : pos) :
  (forall c, catom_test ic a c = true -> needed c = true) ->
  none_of needed (after p) = true ->
  matcher ic (RAtom a) p = [].
Proof.
  intros Himp Hnone. destruct p as [bef [|c aft]]; [reflexivity|].
  cbn [matcher after before]. cbn [after none_of forallb] in Hnone.
  apply andb_true_iff in Hnone. destruct Hnone as [Hc _].
  apply negb_true_iff in Hc.
  destruct (catom_test ic a c) eqn:E; [|reflexivity].
  apply Himp in E. rewrite E in Hc. discriminate.
Qed.

(** A sequence fails where one of its elements always fails. *)
Lemma seqs_needs (ic : bool) (needed : char -> bool) (r : regex)
    (post : list regex) :
  (forall p, none_of needed (after p) = true -> matcher ic r p = []) ->
  forall (pre : list regex) (p : pos),
    none_of needed (after p) = true ->
    matcher ic (seqs (pre ++ r :: post)) p = [].
Proof.
  intros Hr. induction pre as [|r0 pre IH]; intros p Hp.
  - cbn [app seqs fold_right matcher]. rewrite (Hr p Hp). reflexivity.
  - cbn [app seqs fold_right matcher]. apply flat_map_nil. intros q Hq.
    apply IH. apply matcher_reaches in Hq.
    exact (none_of_reaches _ _ _ Hq Hp).
Qed.

Lemma search_needs (ic : bool) (r : regex) (needed : char -> bool) :
  (forall p, none_of needed (after p) = true -> matcher ic r p = []) ->
  forall aft bef,
    none_of needed aft = true -> search ic r bef aft = None.
Proof.
  intros Hr. induction aft as [|c aft IH]; intros bef Hn; rewrite search_unfold;
    rewrite Hr by exact Hn; [reflexivity|].
  apply IH. cbn [none_of forallb] in Hn. apply andb_true_iff in Hn. apply Hn.
Qed.

Lemma string_match_needs (str : text) (R : RegExp) (needed : char -> bool)
    (li : nat) :
  global R = true ->
  (forall p, none_of needed (after p) = true ->
             matcher (ignoreCase R) (source R) p = []) ->
  none_of needed str = true ->
  fst (string_match str R li) = None.
Proof.
  intros Hg Hr Hn. unfold string_match. rewrite Hg.
  assert (He : RegExpBuiltinExec R str 0 = (None, 0)).
  { unfold RegExpBuiltinExec. rewrite Hg. cbv zeta.
    change (length str <? 0) with false. cbv iota.
    change (rev (firstn 0 str)) with (@nil char).
    change (skipn 0 str) with str.
    rewrite (search_needs _ _ _ Hr str [] Hn). reflexivity. }
  rewrite Nat.add_comm.
  change (match_loop (2 + length str) R str 0 []) with
    (match RegExpBuiltinExec R str 0 with
     | (None, lastIndex') => Some (rev (@nil text), lastIndex')
     | (Some matchStr, lastIndex') =>
       match_loop (1 + length str) R str
         match matchStr with [] => S lastIndex' | _ :: _ => lastIndex' end
         [matchStr]
     end).
  rewrite He. reflexivity.
Qed.

Lemma pushed_no_match (str : text) (ty : detector) (pattern : RegExp) :
  fst (string_match str pattern (initial_patterns ty)) = None ->
  pushed str (ty, pattern) = [].
Proof.
  intros H. unfold pushed, detect_entry, bind, text_match, ret.
  destruct (string_match str pattern (initial_patterns ty)) as [m l].
  simpl in H. subst m. reflexivity.
Qed.

Lemma digit_needed (ic : bool) (c : char) :
  catom_test ic CDigit c = true -> is_digit c = true.
Proof. intros H; exact H. Qed.

Lemma upper_needed (c : char) :
  catom_test false (CSet [upper_AZ]) c = true -> is_upper c = true.
Proof.
  cbn [catom_test variants existsb citem_test upper_AZ].
  rewrite !orb_false_r. intros H; exact H.
Qed.

(** The six patterns with a mandatory digit fail in a text without one. *)
Lemma digit_patterns_fail (ty : detector) (pattern : RegExp) (str : text) :
  In (ty, pattern) PHI_PATTERNS ->
  ty <> fullName -> ty <> personalEmail ->
  none_of is_digit str = true ->
  pushed str (ty, pattern) = [].
Proof.
  intros He Hn1 Hn2 Hnone. apply table_entry in He.
  apply pushed_no_match.
  assert (Hrep : forall ic n max p,
             none_of is_digit (after p) = true ->
             matcher ic (RRep CDigit (S n) max) p = []).
  { intros ic n max p Hp. destruct p as [bef aft]. cbn [matcher before after].
    apply (rep_needs _ is_digit); [apply digit_needed|exact Hp]. }
  destruct ty; try (contradiction Hn1; reflexivity);
    try (contradiction Hn2; reflexivity); subst pattern;
    apply (string_match_needs _ _ is_digit); try reflexivity; try exact Hnone.
  - exact (seqs_needs true is_digit (at_least 6 CDigit) [] (Hrep _ _ _)
             [RWordB;
              RGroup (alts (lit "MRN")
                        [lit "mrn"; lit "#";
                         seqs [lit "medical"; star CSpace; lit "record"]]);
              star CSpace; opt (CLit (ch ":")); star CSpace]).
  - exact (seqs_needs true is_digit (between 1 2 CDigit)
             [RAtom (CSet [ISingle (ch "/"); ISingle (ch "-")]);
              between 1 2 CDigit;
              RAtom (CSet [ISingle (ch "/"); ISingle (ch "-")]);
              between 2 4 CDigit] (Hrep _ _ _)
             [RWordB;
              RGroup (alts (lit "DOB")
                        [lit "dob"; lit "born"; lit "birth"; lit "birthday"]);
              star CSpace; opt (CLit (ch ":")); star CSpace]).
  - exact (seqs_needs false is_digit (times 3 CDigit)
             [opt (CSet [ISingle (ch "-"); ISpace]); times 2 CDigit;
              opt (CSet [ISingle (ch "-"); ISpace]); times 4 CDigit; RWordB]
             (Hrep _ _ _) [RWordB]).
  - exact (seqs_needs false is_digit (times 3 CDigit)
             [opt (CSet [ISingle (ch "-"); ISingle (ch "."); ISpace]);
              times 3 CDigit;
              opt (CSet [ISingle (ch "-"); ISingle (ch "."); ISpace]);
              times 4 CDigit; RWordB]
             (Hrep _ _ _) [RWordB]).
  - exact (seqs_needs true is_digit (between 1 2 CDigit)
             [opt (CLit (ch ",")); plus CSpace; times 4 CDigit; RWordB]
             (Hrep _ _ _)
             [RWordB;
              RGroup (alts (lit "January")
                        [lit "February"; lit "March"; lit "April"; lit "May";
                         lit "June"; lit "July"; lit "August"; lit "September";
                         lit "October"; lit "November"; lit "December"]);
              plus CSpace]).
  - exact (seqs_needs true is_digit (plus CDigit)
             [plus CSpace; RAtom (CSet [upper_AZ]); plus (CSet [lower_az]);
              plus CSpace;
              RGroup (alts (lit "Street")
                        [lit "St"; lit "Avenue"; lit "Ave"; lit "Road";
                         lit "Rd"; lit "Boulevard"; lit "Blvd"; lit "Lane";
                         lit "Ln"; lit "Drive"; lit "Dr"; lit "Court";
                         lit "Ct"; lit "Way"]);
              RWordB]
             (Hrep _ _ _) [RWordB]).
Qed.

(** X4. In a text without any digit, [detectPHI] can only report a
    [fullName] or a [personalEmail] violation: the six other patterns (record
    number, date of birth, social security number, phone, calendar date,
    address) each require a digit. *)
Theorem no_digit_only_name_or_email :
  forall (str : text) (st : regex_state) (phi : list violation)
         (v : violation),
    none_of is_digit str = true ->
    fst (detectPHI str st) = Some phi -> In v phi ->
    type v = fullName \/ type v = personalEmail.
Proof.
  intros str st phi v Hnone H Hin. rewrite detectPHI_fst in H.
  destruct (detect_In_typed _ _ _ H Hin) as [pattern [He Hp]].
  destruct (type v) eqn:Hty; try (left; reflexivity); try (right; reflexivity);
    rewrite (digit_patterns_fail _ pattern str He) in Hp;
    try discriminate; try exact Hnone; destruct Hp.
Qed.

(** The statement at a text with a name and no digit. *)
Lemma no_digit_only_name_or_email_witness :
  type (mkViolation fullName 1 (u "Jane Smith...")) = fullName
  \/ type (mkViolation fullName 1 (u "Jane Smith...")) = personalEmail.
Proof.
  apply (no_digit_only_name_or_email (u "seen by Jane Smith today")
           initial_patterns [mkViolation fullName 1 (u "Jane Smith...")]
           (mkViolation fullName 1 (u "Jane Smith..."))).
  - vm_compute. reflexivity.
  - vm_compute. reflexivity.
  - left. reflexivity.
Defined.

(** X5. A text without [@] yields no [personalEmail] violation, and a text
    without an upper-case ASCII letter yields no [fullName] violation (the
    name pattern is the one matched case-sensitively on capitals). *)
Theorem no_at_no_email_no_capital_no_name :
  forall (str : text) (st : regex_state) (phi : list violation)
         (v : violation),
    fst (detectPHI str st) = Some phi -> In v phi ->
    (existsb (char_eqb at_sign) str = false -> type v <> personalEmail)
    /\ (none_of is_upper str = true -> type v <> fullName).
Proof.
  intros str st phi v H Hin. split.
  - intros Hat. apply (guarded_no_personalEmail str st phi v); try assumption.
    apply guarded_without_at. exact Hat.
  - intros Hup Hty. rewrite detectPHI_fst in H.
    destruct (detect_In_typed _ _ _ H Hin) as [pattern [He Hp]].
    apply table_entry in He. rewrite Hty in He, Hp. subst pattern.
    rewrite pushed_no_match in Hp; [destruct Hp|].
    apply (string_match_needs _ _ is_upper); [reflexivity| |exact Hup].
    exact (seqs_needs false is_upper (RAtom (CSet [upper_AZ]))
             [at_least 2 (CSet [lower_az]); plus CSpace;
              RAtom (CSet [upper_AZ]); at_least 2 (CSet [lower_az]); RWordB]
             (fun p Hp' => atom_needs false _ is_upper p upper_needed Hp')
             [RWordB]).
Qed.

(** The statement at a lower-case text with a phone number. *)
Lemma no_at_no_email_no_capital_no_name_witness :
  type (mkViolation phone 1 (u "555-123-4567...")) <> personalEmail
  /\ type (mkViolation phone 1 (u "555-123-4567...")) <> fullName.
Proof.
  split.
  - apply (proj1 (no_at_no_email_no_capital_no_name
                    (u "call 555-123-4567 now") initial_patterns
                    [mkViolation phone 1 (u "555-123-4567...")]
                    (mkViolation phone 1 (u "555-123-4567..."))
                    ltac:(vm_compute; reflexivity) (or_introl eq_refl))).
    vm_compute. reflexivity.
  - apply (proj2 (no_at_no_email_no_capital_no_name
                    (u "call 555-123-4567 now") initial_patterns
                    [mkViolation phone 1 (u "555-123-4567...")]
                    (mkViolation phone 1 (u "555-123-4567..."))
                    ltac:(vm_compute; reflexivity) (or_introl eq_refl))).
    vm_compute. reflexivity.
Defined.

(** ** scanForPHI *)

Lemma flat_map_eq_nil {A B : Type} (f : A -> list B) (l : list A) :
  flat_map f l = [] <-> forall x, In x l -> f x = [].
Proof.
  split; [|apply flat_map_nil].
  induction l as [|a l IH]; intros H x Hx; [destruct Hx|].
  cbn [flat_map] in H. apply app_eq_nil in H. destruct H as [Ha Hl].
  destruct Hx as [<-|Hx]; [exact Ha|apply IH; assumption].
Qed.

Lemma report_nil (visit : text * text) :
  report visit = [] <-> detect (snd visit) = None.
Proof.
  unfold report. destruct (detect (snd visit)); split; try reflexivity;
    discriminate.
Qed.

Lemma detect_not_empty (s : text) : detect s <> Some [].
Proof.
  rewrite detect_unfold. destruct s as [|c s]; [discriminate|].
  cbv zeta. destruct (flat_map (pushed (c :: s)) PHI_PATTERNS); discriminate.
Qed.

(** X6. The scanner returns no finding for a record exactly when [detectPHI]
    is [null] on every string value of the record that is not below a key
    [createdAt], [updatedAt] or [_]. *)
Theorem scan_empty_iff_strings_clean :
  forall (entries : list (text * value)) (path : text) (st : regex_state),
    fst (scanForPHI (VObject entries) path st) = []
    <-> forall s, In s (strings_below (VObject entries)) ->
                  fst (detectPHI s st) = None.
Proof.
  intros entries path st. rewrite scanForPHI_fst, flat_map_eq_nil.
  pose proof (proj1 (string_fields_texts_strong (VObject entries)) path) as Hv.
  cbv beta iota in Hv. rewrite <- Hv. split.
  - intros H s Hs. rewrite detectPHI_fst.
    apply in_map_iff in Hs. destruct Hs as [visit [<- Hin]].
    apply report_nil. apply H. exact Hin.
  - intros H visit Hin. apply report_nil. rewrite <- (detectPHI_fst _ st).
    apply H. apply in_map. exact Hin.
Qed.

(** The statement for a record whose strings are all clean. *)
Lemma scan_empty_iff_strings_clean_witness :
  fst (scanForPHI
         (VObject [(u "note", VString (u "fed well, stable"));
                   (u "tags", VArray [VString (u "stable")])])
         [] initial_patterns) = [].
Proof.
  apply (proj2 (scan_empty_iff_strings_clean
                  [(u "note", VString (u "fed well, stable"));
                   (u "tags", VArray [VString (u "stable")])]
                  [] initial_patterns)).
  intros s Hs. simpl in Hs.
  destruct Hs as [<-|[<-|[]]]; vm_compute; reflexivity.
Defined.

Lemma length_flat_map_le {A B : Type} (f : A -> list B) (l : list A) :
  (forall x, length (f x) <= 1) -> length (flat_map f l) <= length l.
Proof.
  intros H. induction l as [|a l IH]; [simpl; lia|].
  cbn [flat_map]. rewrite length_app. specialize (H a). simpl. lia.
Qed.

(** X7. Every finding of the scanner carries at least one violation, and
    there are at most as many findings as there are string values outside
    the skipped keys: one finding at most per string field. *)
Theorem findings_nonempty_and_bounded :
  forall (entries : list (text * value)) (path : text) (st : regex_state),
    (forall f, In f (fst (scanForPHI (VObject entries) path st)) ->
               violations f <> [])
    /\ length (fst (scanForPHI (VObject entries) path st))
       <= length (strings_below (VObject entries)).
Proof.
  intros entries path st. rewrite scanForPHI_fst. split.
  - intros f Hf. apply in_flat_map in Hf. destruct Hf as [visit [_ Hf]].
    unfold report in Hf. destruct (detect (snd visit)) as [phi|] eqn:E;
      [|destruct Hf].
    destruct Hf as [<-|[]]. cbn [violations]. intros ->.
    exact (detect_not_empty _ E).
  - pose proof (proj1 (string_fields_texts_strong (VObject entries)) path) as Hv.
    cbv beta iota in Hv. rewrite <- Hv, length_map.
    apply length_flat_map_le. intros visit. unfold report.
    destruct (detect (snd visit)); simpl; lia.
Qed.

(** The statement for a finding of a record with a phone number. *)
Lemma findings_nonempty_and_bounded_witness :
  violations (mkFinding (u "note")
                [mkViolation phone 1 (u "555-123-4567...")]) <> [].
Proof.
  apply (proj1 (findings_nonempty_and_bounded
                  [(u "note", VString (u "call 555-123-4567"))]
                  [] initial_patterns)).
  vm_compute. left. reflexivity.
Defined.

(** X8. The findings of a record are those of its first fields followed by
    those of its remaining fields: adding fields to a record never removes
    or reorders the findings of the fields it had. *)
Theorem scan_fields_compose :
  forall (first rest : list (text * value)) (path : text) (st : regex_state),
    fst (scanForPHI (VObject (first ++ rest)) path st) =
    fst (scanForPHI (VObject first) path st)
    ++ fst (scanForPHI (VObject rest) path st).
Proof.
  intros first rest path st. rewrite !scanForPHI_fst.
  cbn [string_fields]. rewrite flat_map_app, flat_map_app. reflexivity.
Qed.

(** ** The triggers *)

Lemma invoke_run (f : faults) (ev : event) (context : params) (w : world) :
  invoke f ev context w =
  let st' := snd (scanForPHI (committed ev) [] (patterns w)) in
  let entry := audit_of ev context in
  if has_findings (committed ev) then
    if add_fails f then
      (Throw (FirestoreError (CallAdd entry)),
       mkWorld (baby_doc w) (phi_violations w)
         (issued w ++ [CallAdd entry]) st')
    else if corrective_fails f ev then
      (Throw (FirestoreError (corrective ev)),
       mkWorld (baby_doc w) (phi_violations w ++ [entry])
         ((issued w ++ [CallAdd entry]) ++ [corrective ev]) st')
    else
      (Ok (rejection ev),
       mkWorld match ev with
               | Created _ => None
               | Updated oldData _ => Some oldData
               end
         (phi_violations w ++ [entry])
         ((issued w ++ [CallAdd entry]) ++ [corrective ev]) st')
  else
    (Ok approved,
     mkWorld (baby_doc w) (phi_violations w) (issued w) st').
Proof.
  unfold has_findings, audit_of, rejection, corrective_fails, findings_of.
  destruct ev as [data|oldData newData];
    unfold invoke, validateBabyData, validateBabyDataUpdate, io_bind,
      with_patterns;
    cbn [patterns committed corrective];
    match goal with
    | |- context [scanForPHI ?d [] (patterns w)] =>
      pose proof (scanForPHI_fst d [] (patterns w)) as H1;
      pose proof (scanForPHI_fst d [] initial_patterns) as H2;
      destruct (scanForPHI d [] (patterns w)) as [fs st1];
      cbn [fst snd] in *; rewrite H2, <- H1
    end;
    (destruct (0 <? length fs); [|reflexivity]);
    unfold add_violation, ref_delete, ref_set, issue, io_ret;
    cbn [baby_doc phi_violations issued patterns];
    destruct (add_fails f); try reflexivity.
  - destruct (delete_fails f); reflexivity.
  - destruct (set_fails f); reflexivity.
Qed.

Lemma handle_invoke (f : faults) (ev : event) (context : params) (w : world) :
  handle f ev context w =
  invoke f ev context
    (mkWorld (Some (committed ev)) (phi_violations w) (issued w) (patterns w)).
Proof. destruct ev; reflexivity. Qed.

(** X9. When the committed value has no finding, either handler returns
    [{ status: 'approved' }] and touches nothing: no call is issued, the
    audit collection is unchanged and the record stays as committed,
    whether or not the store would have rejected a write. *)
Theorem clean_write_is_approved_untouched :
  forall (f : faults) (ev : event) (context : params) (w : world),
    has_findings (committed ev) = false ->
    fst (handle f ev context w) = Ok approved
    /\ issued (snd (handle f ev context w)) = issued w
    /\ phi_violations (snd (handle f ev context w)) = phi_violations w
    /\ baby_doc (snd (handle f ev context w)) = Some (committed ev).
Proof.
  intros f ev context w Hf. rewrite handle_invoke, invoke_run. cbv zeta.
  rewrite Hf. repeat split; reflexivity.
Qed.

(** The statement for the creation of a clean record in a store whose
    writes all fail. *)
Lemma clean_write_is_approved_untouched_witness :
  fst (handle (mkFaults true true true) (Created clean_note) some_params
         empty_world) = Ok approved
  /\ issued (snd (handle (mkFaults true true true) (Created clean_note)
                    some_params empty_world)) = issued empty_world
  /\ phi_violations (snd (handle (mkFaults true true true)
                            (Created clean_note) some_params empty_world))
     = phi_violations empty_world
  /\ baby_doc (snd (handle (mkFaults true true true) (Created clean_note)
                      some_params empty_world))
     = Some (committed (Created clean_note)).
Proof.
  apply (clean_write_is_approved_untouched (mkFaults true true true)
           (Created clean_note) some_params empty_world).
  vm_compute. reflexivity.
Defined.

(** X10. The audit collection only grows, by one entry at most per handler
    run: the entry is appended exactly when the committed value has findings
    and the audit write is accepted.  A run that returns a rejection has
    appended exactly one entry; it holds the findings of the scan, the
    action ['deleted'] on create and ['rollback'] on update, and the
    severity ['high'], and the rejection returned lists the field paths of
    these findings. *)
Theorem one_audit_entry_per_rejection :
  forall (f : faults) (ev : event) (context : params) (w : world),
    phi_violations (snd (handle f ev context w)) =
    phi_violations w
    ++ (if has_findings (committed ev) && negb (add_fails f)
        then [audit_of ev context] else [])
    /\ (forall resp,
         fst (handle f ev context w) = Ok resp -> resp <> approved ->
         phi_violations (snd (handle f ev context w))
         = phi_violations w ++ [audit_of ev context]
         /\ resp = rejection ev
         /\ findings (audit_of ev context) = findings_of (committed ev)
         /\ action (audit_of ev context)
            = match ev with
              | Created _ => u "deleted"
              | Updated _ _ => u "rollback"
              end
         /\ severity (audit_of ev context) = u "high").
Proof.
  intros f ev context w. rewrite handle_invoke, invoke_run. cbv zeta.
  cbn [baby_doc phi_violations issued patterns].
  destruct (has_findings (committed ev));
    [|split; [cbn [andb snd phi_violations]; rewrite app_nil_r; reflexivity
             |intros resp H Hne; injection H as <-; contradiction Hne;
              reflexivity]].
  destruct (add_fails f);
    [split; [cbn [andb negb snd phi_violations]; rewrite app_nil_r; reflexivity
            |intros resp H; discriminate H]|].
  destruct (corrective_fails f ev);
    (split; [reflexivity|]); intros resp H Hne; [discriminate H|].
  injection H as <-. repeat split; reflexivity.
Qed.

(** The statement for the rejection of a created record with a phone
    number. *)
Lemma one_audit_entry_per_rejection_witness :
  phi_violations (snd (handle no_faults (Created phone_note) some_params
                         empty_world))
  = phi_violations empty_world ++ [audit_of (Created phone_note) some_params]
  /\ rejection (Created phone_note) = rejection (Created phone_note)
  /\ findings (audit_of (Created phone_note) some_params)
     = findings_of (committed (Created phone_note))
  /\ action (audit_of (Created phone_note) some_params) = u "deleted"
  /\ severity (audit_of (Created phone_note) some_params) = u "high".
Proof.
  apply (proj2 (one_audit_entry_per_rejection no_faults (Created phone_note)
                  some_params empty_world) (rejection (Created phone_note))).
  - vm_compute. reflexivity.
  - discriminate.
Defined.

(** X11. A handler that fails leaves the record with findings in the store.
    It only fails when the committed value has findings; the record is then
    still the committed value.  If the audit write was the one rejected,
    the corrective action was never issued and no entry was written; if the
    corrective action was rejected, the audit collection nevertheless holds
    the entry written before it, stating ['deleted'] or ['rollback']. *)
Theorem failed_handler_leaves_record :
  forall (f : faults) (ev : event) (context : params) (w w' : world)
         (e : error),
    handle f ev context w = (Throw e, w') ->
    has_findings (committed ev) = true
    /\ baby_doc w' = Some (committed ev)
    /\ ((e = FirestoreError (CallAdd (audit_of ev context))
         /\ add_fails f = true
         /\ phi_violations w' = phi_violations w
         /\ issued w' = issued w ++ [CallAdd (audit_of ev context)])
        \/ (e = FirestoreError (corrective ev)
            /\ add_fails f = false
            /\ phi_violations w' = phi_violations w ++ [audit_of ev context]
            /\ issued w' =
               issued w ++ [CallAdd (audit_of ev context); corrective ev])).
Proof.
  intros f ev context w w' e H. rewrite handle_invoke, invoke_run in H.
  cbv zeta in H. cbn [baby_doc phi_violations issued patterns] in H.
  destruct (has_findings (committed ev)); [|discriminate H].
  split; [reflexivity|].
  destruct (add_fails f).
  - injection H as <- <-. split; [reflexivity|]. left. repeat split; reflexivity.
  - destruct (corrective_fails f ev); [|discriminate H].
    injection H as <- <-. split; [reflexivity|]. right.
    cbn [phi_violations issued]. rewrite <- app_assoc.
    repeat split; reflexivity.
Qed.

(** The statement for a creation whose delete is rejected. *)
Lemma failed_handler_leaves_record_witness :
  has_findings (committed (Created phone_note)) = true
  /\ baby_doc (snd (handle (mkFaults false true false) (Created phone_note)
                      some_params empty_world))
     = Some (committed (Created phone_note))
  /\ ((FirestoreError CallDelete
       = FirestoreError (CallAdd (audit_of (Created phone_note) some_params))
       /\ add_fails (mkFaults false true false) = true
       /\ phi_violations
            (snd (handle (mkFaults false true false) (Created phone_note)
                    some_params empty_world))
          = phi_violations empty_world
       /\ issued (snd (handle (mkFaults false true false) (Created phone_note)
                         some_params empty_world))
          = issued empty_world
            ++ [CallAdd (audit_of (Created phone_note) some_params)])
      \/ (FirestoreError CallDelete
          = FirestoreError (corrective (Created phone_note))
          /\ add_fails (mkFaults false true false) = false
          /\ phi_violations
               (snd (handle (mkFaults false true false) (Created phone_note)
                       some_params empty_world))
             = phi_violations empty_world
               ++ [audit_of (Created phone_note) some_params]
          /\ issued (snd (handle (mkFaults false true false)
                            (Created phone_note) some_params empty_world))
             = issued empty_world
               ++ [CallAdd (audit_of (Created phone_note) some_params);
                   corrective (Created phone_note)])).
Proof.
  apply (failed_handler_leaves_record (mkFaults false true false)
           (Created phone_note) some_params empty_world
           (snd (handle (mkFaults false true false) (Created phone_note)
                   some_params empty_world))
           (FirestoreError CallDelete)).
  vm_compute. reflexivity.
Defined.

(** X12. Delivering the same event a second time, after a first run that
    rejected the write: the corrective action is repeated without effect
    (the record stays deleted, or stays the prior version) and the same
    rejection is returned, but a second, identical audit entry is
    appended. *)
Theorem redelivery_duplicates_audit_entry :
  forall (ev : event) (context : params) (w : world),
    has_findings (committed ev) = true ->
    let first := handle no_faults ev context w in
    let second := invoke no_faults ev context (snd first) in
    fst second = fst first
    /\ fst second = Ok (rejection ev)
    /\ baby_doc (snd second) = baby_doc (snd first)
    /\ phi_violations (snd second)
       = phi_violations w ++ [audit_of ev context; audit_of ev context].
Proof.
  intros ev context w Hf first second. subst first second.
  rewrite handle_invoke, !invoke_run. cbv zeta. rewrite Hf.
  cbn [add_fails no_faults]. 
  assert (Hc : corrective_fails no_faults ev = false) by (destruct ev; reflexivity).
  rewrite Hc. cbn [fst snd baby_doc phi_violations]. rewrite <- app_assoc.
  repeat split; reflexivity.
Qed.

(** The statement for the creation of a record with a phone number. *)
Lemma redelivery_duplicates_audit_entry_witness :
  let first := handle no_faults (Created phone_note) some_params empty_world in
  let second :=
    invoke no_faults (Created phone_note) some_params (snd first) in
  fst second = fst first
  /\ fst second = Ok (rejection (Created phone_note))
  /\ baby_doc (snd second) = baby_doc (snd first)
  /\ phi_violations (snd second)
     = phi_violations empty_world
       ++ [audit_of (Created phone_note) some_params;
           audit_of (Created phone_note) some_params].
Proof.
  apply (redelivery_duplicates_audit_entry (Created phone_note) some_params
           empty_world).
  vm_compute. reflexivity.
Defined.

(** X13. The write issued by a rollback is itself an update of the record,
    from the rejected value to the prior one.  Its own handler approves it
    when the prior value has no finding; when the prior value has findings
    too, that handler rolls the record back to the value the first handler
    had rejected, and writes a second audit entry. *)
Theorem rollback_of_rollback :
  forall (oldData newData : value) (context : params) (w : world),
    has_findings newData = true ->
    let first := on_update no_faults oldData newData context w in
    let second := on_update no_faults newData oldData context (snd first) in
    baby_doc (snd first) = Some oldData
    /\ (has_findings oldData = false ->
        fst second = Ok approved
        /\ baby_doc (snd second) = Some oldData
        /\ phi_violations (snd second) = phi_violations (snd first))
    /\ (has_findings oldData = true ->
        fst second = Ok (rejection (Updated newData oldData))
        /\ baby_doc (snd second) = Some newData
        /\ phi_violations (snd second)
           = phi_violations w
             ++ [audit_of (Updated oldData newData) context;
                 audit_of (Updated newData oldData) context]).
Proof.
  intros oldData newData context w Hnew first second. subst first second.
  change (on_update no_faults oldData newData context w)
    with (handle no_faults (Updated oldData newData) context w).
  set (w1 := snd (handle no_faults (Updated oldData newData) context w)).
  change (on_update no_faults newData oldData context w1)
    with (handle no_faults (Updated newData oldData) context w1).
  assert (H1 : baby_doc w1 = Some oldData
               /\ phi_violations w1
                  = phi_violations w ++ [audit_of (Updated oldData newData) context]).
  { subst w1. rewrite handle_invoke, invoke_run. cbv zeta.
    cbn [committed]. rewrite Hnew. split; reflexivity. }
  destruct H1 as [Hdoc Haud]. split; [exact Hdoc|].
  rewrite handle_invoke, invoke_run. cbv zeta. cbn [committed].
  split; intros Hold; rewrite Hold.
  - repeat split; reflexivity.
  - cbn [add_fails no_faults corrective_fails set_fails fst snd baby_doc
         phi_violations].
    rewrite Haud, <- app_assoc. repeat split; reflexivity.
Qed.

(** The statement for two versions that both hold a finding. *)
Lemma rollback_of_rollback_witness :
  let first := on_update no_faults phone_note email_note some_params
                 empty_world in
  let second := on_update no_faults email_note phone_note some_params
                  (snd first) in
  fst second = Ok (rejection (Updated email_note phone_note))
  /\ baby_doc (snd second) = Some email_note
  /\ phi_violations (snd second)
     = phi_violations empty_world
       ++ [audit_of (Updated phone_note email_note) some_params;
           audit_of (Updated email_note phone_note) some_params].
Proof.
  apply (proj2 (proj2 (rollback_of_rollback phone_note email_note some_params
                         empty_world ltac:(vm_compute; reflexivity)))).
  vm_compute. reflexivity.
Defined.

(** ** generateShiftSummary *)

Lemma summary_body_failure_writes :
  forall (number_text : Z -> text) (conversion_error : text)
         (render : value -> list value -> text + text)
         (now_iso : text) (server_time : value) (fs : firestore)
         (appId shiftId : option value) (uid : text) (err : thrown)
         (writes : list write),
    summary_body number_text conversion_error render now_iso server_time fs appId shiftId uid
    = (inr err, writes) ->
    writes = [].
Proof.
  intros number_text conversion_error render now_iso server_time fs appId shiftId uid err writes.
  unfold summary_body.
  destruct (template number_text shiftId) as [shiftId_|];
    [|intros H; injection H as _ <-; reflexivity].
  destruct (template number_text appId) as [appId_|];
    [|intros H; injection H as _ <-; reflexivity].
  cbv zeta.
  destruct (doc_get fs _) as [msg|[shift|]];
    [intros H; injection H as _ <-; reflexivity|
    |intros H; injection H as _ <-; reflexivity].
  destruct (collection_get fs _) as [msg|docs];
    [intros H; injection H as _ <-; reflexivity|].
  destruct (render shift _) as [summary_|msg];
    [|intros H; injection H as _ <-; reflexivity].
  destruct (doc_update fs _ _) as [msg|];
    [intros H; injection H as _ <-; reflexivity|discriminate].
Qed.

(** X14. Every failure of [generateShiftSummary] leaves Firestore without
    an update.  The call fails with the [TypeError] of the destructuring,
    which no [catch] clause handles, exactly when it is authenticated and
    its payload is [null]; otherwise it is rejected with an [HttpsError]
    whose code is one of three, never [not-found]: [unauthenticated]
    exactly when the call has no [auth]; [invalid-argument] exactly when it
    has one, the payload is not [null] and [appId] or [shiftId] is missing
    or falsy; [internal] in the remaining case, where the [try] block has
    thrown an error, and then the message is "Failed to generate shift
    summary" and the details are the message of that error. *)
Theorem summary_rejections :
  forall (number_text : Z -> text) (conversion_error : text)
         (render : value -> list value -> text + text)
         (now_iso : text) (server_time : value) (fs : firestore)
         (data : value) (context : call_context) (how : failure)
         (writes : list write),
    generateShiftSummary number_text conversion_error render now_iso
      server_time fs data context
    = (inr how, writes) ->
    writes = []
    /\ (how = TypeErrorThrown <-> auth context <> None /\ data = VNull)
    /\ forall e : HttpsError,
        how = HttpsRejection e ->
        code e <> not_found
        /\ (code e = unauthenticated <-> auth context = None)
        /\ (code e = invalid_argument <->
            auth context <> None /\ data <> VNull
            /\ (falsy (destructured data (u "appId"))
                || falsy (destructured data (u "shiftId"))) = true)
        /\ (code e = internal ->
            exists (uid : text) (err : thrown),
              auth context = Some uid
              /\ fst (summary_body number_text conversion_error render now_iso server_time fs
                        (destructured data (u "appId"))
                        (destructured data (u "shiftId")) uid) = inr err
              /\ message e = u "Failed to generate shift summary"
              /\ details e = Some (thrown_message err)).
Proof.
  intros number_text conversion_error render now_iso server_time fs data context how writes.
  unfold generateShiftSummary.
  destruct (auth context) as [uid|].
  - assert (Hnull : data = VNull \/ data <> VNull)
      by (destruct data; [left; reflexivity|right; discriminate ..]).
    destruct Hnull as [->|Hnn].
    { intros H; injection H as <- <-.
      split; [reflexivity|]. split; [split; [split; [discriminate|reflexivity]|reflexivity]|].
      intros e He; discriminate He. }
    set (appId := destructured data (u "appId")).
    set (shiftId := destructured data (u "shiftId")).
    intros H.
    assert (H' :
      (if falsy appId || falsy shiftId
       then (inr (HttpsRejection
                    (mkHttpsError invalid_argument
                       (u "appId and shiftId are required") None)), [])
       else
         match summary_body number_text conversion_error render now_iso server_time fs
                 appId shiftId uid with
         | (inl r, ws) => (inl r, ws)
         | (inr error, ws) =>
           (inr (HttpsRejection
                   (mkHttpsError internal (u "Failed to generate shift summary")
                      (Some (thrown_message error)))), ws)
         end) = (@inr summary_response failure how, writes))
      by (destruct data; [contradiction Hnn; reflexivity|exact H ..]).
    clear H.
    destruct (falsy appId || falsy shiftId) eqn:Hf.
    + injection H' as <- <-.
      split; [reflexivity|].
      split; [split; [discriminate|intros [_ Hx]; contradiction]|].
      intros e He; injection He as <-. cbn [code].
      split; [discriminate|]. split; [split; discriminate|].
      split; [|discriminate].
      split; [intros _; split; [discriminate|split; [exact Hnn|reflexivity]]
             |reflexivity].
    + destruct (summary_body number_text conversion_error render now_iso server_time fs
                  appId shiftId uid) as [[r|err] ws] eqn:Hb; [discriminate|].
      injection H' as <- <-.
      split; [eapply summary_body_failure_writes; exact Hb|].
      split; [split; [discriminate|intros [_ Hx]; contradiction]|].
      intros e He; injection He as <-. cbn [code message details].
      split; [discriminate|]. split; [split; discriminate|].
      split; [split; [discriminate|intros [_ [_ Hx]]; discriminate Hx]|].
      intros _. exists uid, err.
      split; [reflexivity|]. split; [rewrite Hb; reflexivity|].
      split; reflexivity.
  - intros H; injection H as <- <-.
    split; [reflexivity|].
    split; [split; [discriminate|intros [Hx _]; contradiction Hx; reflexivity]|].
    intros e He; injection He as <-. cbn [code].
    split; [discriminate|]. split; [split; reflexivity|].
    split; [split; [discriminate|intros [Hx _]; contradiction Hx; reflexivity]|].
    discriminate.
Qed.

(** The statement for a call for a shift that does not exist. *)
Lemma summary_rejections_witness :
  ([] : list write) = []
  /\ (HttpsRejection
        (mkHttpsError internal (u "Failed to generate shift summary")
           (Some (u "Shift not found"))) = TypeErrorThrown
      <-> auth (mkContext (Some (u "nurse1"))) <> None
          /\ one_shift_call = VNull)
  /\ forall e : HttpsError,
      HttpsRejection
        (mkHttpsError internal (u "Failed to generate shift summary")
           (Some (u "Shift not found"))) = HttpsRejection e ->
      code e <> not_found
      /\ (code e = unauthenticated
          <-> auth (mkContext (Some (u "nurse1"))) = None)
      /\ (code e = invalid_argument <->
          auth (mkContext (Some (u "nurse1"))) <> None
          /\ one_shift_call <> VNull
          /\ (falsy (destructured one_shift_call (u "appId"))
              || falsy (destructured one_shift_call (u "shiftId"))) = true)
      /\ (code e = internal ->
          exists (uid : text) (err : thrown),
            auth (mkContext (Some (u "nurse1"))) = Some uid
            /\ fst (summary_body (fun _ => []) (u "no primitive value") count_render
                      (u "now") VNull
                      no_documents
                      (destructured one_shift_call (u "appId"))
                      (destructured one_shift_call (u "shiftId")) uid)
               = inr err
            /\ message e = u "Failed to generate shift summary"
            /\ details e = Some (thrown_message err)).
Proof.
  apply (summary_rejections (fun _ => []) (u "no primitive value")
           count_render (u "now") VNull
           no_documents one_shift_call (mkContext (Some (u "nurse1")))).
  vm_compute. reflexivity.
Defined.

Lemma text_eqb_neq (a b : text) : a <> b -> text_eqb a b = false.
Proof.
  intros H. destruct (text_eqb a b) eqn:E; [|reflexivity].
  apply text_eqb_eq in E. contradiction.
Qed.

Lemma get_prop_upsert_other (key key' : text) (v : value)
    (onto : value -> value) (entries : list (text * value)) :
  key' <> key ->
  get_prop key' (upsert key v onto entries) = get_prop key' entries.
Proof.
  intros Hne. induction entries as [|[k c] entries IH]; cbn [upsert get_prop].
  - rewrite text_eqb_neq by (intros E; apply Hne; symmetry; exact E).
    reflexivity.
  - destruct (text_eqb k key) eqn:E; cbn [get_prop].
    + apply text_eqb_eq in E. subst k.
      rewrite text_eqb_neq by (intros E; apply Hne; symmetry; exact E).
      reflexivity.
    + destruct (text_eqb k key'); [reflexivity|exact IH].
Qed.

(** X15. When [generateShiftSummary] returns, the caller was authenticated,
    the payload held both identifiers, [get] found the shift document and
    the query of its [babies] collection was answered; the statements that
    assemble the summary threw nothing; [babyCount] is the number of
    documents the query returned and [timestamp] the reading of the clock;
    and exactly one update was applied, to the shift document that was
    read, with the returned text as [cachedSummary] and the server time
    stamp as [summaryGeneratedAt]. *)
Theorem summary_success :
  forall (number_text : Z -> text) (conversion_error : text)
         (render : value -> list value -> text + text)
         (now_iso : text) (server_time : value) (fs : firestore)
         (data : value) (context : call_context) (r : summary_response)
         (writes : list write),
    generateShiftSummary number_text conversion_error render now_iso
      server_time fs data context
    = (inl r, writes) ->
    exists (uid path : text) (shift : value) (docs : list (text * value)),
      auth context = Some uid
      /\ falsy (destructured data (u "appId")) = false
      /\ falsy (destructured data (u "shiftId")) = false
      /\ shift_path number_text data uid = Some path
      /\ doc_get fs path = Snapshot (Some shift)
      /\ collection_get fs (path ++ u "/babies") = QuerySnapshot docs
      /\ render shift (map (fun doc => with_id (fst doc) (snd doc)) docs)
         = inl (summary r)
      /\ babyCount r = length docs
      /\ timestamp r = now_iso
      /\ writes =
         [(path,
           [(u "cachedSummary", VString (summary r));
            (u "summaryGeneratedAt", server_time)])].
Proof.
  intros number_text conversion_error render now_iso server_time fs data
    context r writes.
  unfold generateShiftSummary.
  destruct (auth context) as [uid|]; [|discriminate].
  intros H.
  assert (H' :
    (if falsy (destructured data (u "appId"))
        || falsy (destructured data (u "shiftId"))
     then (inr (HttpsRejection
                  (mkHttpsError invalid_argument
                     (u "appId and shiftId are required") None)), [])
     else
       match summary_body number_text conversion_error render now_iso
               server_time fs
               (destructured data (u "appId"))
               (destructured data (u "shiftId")) uid with
       | (inl r, ws) => (inl r, ws)
       | (inr error, ws) =>
         (inr (HttpsRejection
                 (mkHttpsError internal (u "Failed to generate shift summary")
                    (Some (thrown_message error)))), ws)
       end) = (@inl summary_response failure r, writes))
    by (destruct data; [discriminate H|exact H ..]).
  clear H.
  destruct (falsy (destructured data (u "appId"))) eqn:Ha; [discriminate|].
  destruct (falsy (destructured data (u "shiftId"))) eqn:Hs; [discriminate|].
  cbn [orb] in H'.
  destruct (summary_body number_text conversion_error render now_iso
              server_time fs
              (destructured data (u "appId"))
              (destructured data (u "shiftId")) uid) as [[r0|err] ws] eqn:Hb;
    [|discriminate].
  injection H' as <- <-.
  unfold summary_body in Hb. unfold shift_path.
  destruct (template number_text (destructured data (u "shiftId")))
    as [shiftId_|]; [|discriminate].
  destruct (template number_text (destructured data (u "appId")))
    as [appId_|]; [|discriminate].
  cbv zeta in Hb.
  set (path := u "artifacts/" ++ appId_ ++ u "/users/" ++ uid
               ++ u "/nicu_shifts/" ++ shiftId_) in *.
  destruct (doc_get fs path) as [msg|[shift|]] eqn:Hdoc;
    [discriminate| |discriminate].
  destruct (collection_get fs (path ++ u "/babies")) as [msg|docs] eqn:Hq;
    [discriminate|].
  destruct (render shift (map (fun doc => with_id (fst doc) (snd doc)) docs))
    as [summary_|msg] eqn:Hr; [|discriminate].
  destruct (doc_update fs path _) as [msg|]; [discriminate|].
  apply pair_equal_spec in Hb. destruct Hb as [Hr0 Hw].
  assert (Hr1 : mkSummary summary_ now_iso
                  (length (map (fun doc => with_id (fst doc) (snd doc)) docs))
                = r0) by congruence.
  clear Hr0. subst r0 ws. cbn [summary babyCount timestamp].
  exists uid, path, shift, docs.
  split; [reflexivity|]. split; [reflexivity|]. split; [reflexivity|].
  split; [reflexivity|].
  split; [exact Hdoc|]. split; [exact Hq|]. split; [exact Hr|].
  split; [apply length_map|]. split; reflexivity.
Qed.

(** The statement for a shift with one baby. *)
Lemma summary_success_witness :
  exists (uid path : text) (shift : value) (docs : list (text * value)),
    auth (mkContext (Some (u "nurse1"))) = Some uid
    /\ falsy (destructured one_shift_call (u "appId")) = false
    /\ falsy (destructured one_shift_call (u "shiftId")) = false
    /\ shift_path (fun _ => []) one_shift_call uid = Some path
    /\ doc_get one_shift path = Snapshot (Some shift)
    /\ collection_get one_shift (path ++ u "/babies") = QuerySnapshot docs
    /\ count_render
         shift (map (fun doc => with_id (fst doc) (snd doc)) docs)
       = inl (summary (mkSummary (u "report") (u "now") 1))
    /\ babyCount (mkSummary (u "report") (u "now") 1) = length docs
    /\ timestamp (mkSummary (u "report") (u "now") 1) = u "now"
    /\ [(u "artifacts/app/users/nurse1/nicu_shifts/s1",
         [(u "cachedSummary", VString (u "report"));
          (u "summaryGeneratedAt", VNull)])] =
       [(path,
         [(u "cachedSummary",
           VString (summary (mkSummary (u "report") (u "now") 1)));
          (u "summaryGeneratedAt", VNull)])].
Proof.
  apply (summary_success (fun _ => []) (u "no primitive value")
           count_render (u "now")
           VNull one_shift one_shift_call (mkContext (Some (u "nurse1")))).
  vm_compute. reflexivity.
Defined.

(** ** Documents written by the client helpers *)

Lemma fields_cons (k : text) (v : value) (entries : list (text * value))
    (path : text) :
  string_fields (VObject ((k, v) :: entries)) path =
  entry_fields string_fields path k v ++ string_fields (VObject entries) path.
Proof. reflexivity. Qed.

Lemma fields_set_prop_skipped (key : text) (v : value) (path : text)
    (entries : list (text * value)) :
  skipped key = true ->
  string_fields (VObject (set_prop key v entries)) path =
  string_fields (VObject entries) path.
Proof.
  intros Hk. unfold set_prop.
  induction entries as [|[k c] entries IH]; cbn [upsert].
  - rewrite fields_cons. unfold entry_fields. rewrite Hk. reflexivity.
  - destruct (text_eqb k key) eqn:E.
    + apply text_eqb_eq in E. subst k. rewrite !fields_cons.
      unfold entry_fields. rewrite Hk. reflexivity.
    + rewrite !fields_cons, IH. reflexivity.
Qed.

Lemma detect_empty : detect [] = None.
Proof. reflexivity. Qed.

(** Replacing a falsy value by an empty object or list changes nothing to
    what the scanner reports. *)
Lemma reports_set_default (key : text) (d : value) (path : text) :
  (forall p k, entry_fields string_fields p k d = []) ->
  forall entries,
    flat_map report
      (string_fields
         (VObject (set_prop key (or_else (get_prop key entries) d) entries))
         path)
    = flat_map report (string_fields (VObject entries) path).
Proof.
  intros Hd. unfold set_prop.
  induction entries as [|[k c] entries IH]; cbn [get_prop upsert or_else].
  - rewrite fields_cons, Hd. reflexivity.
  - destruct (text_eqb k key) eqn:E.
    + rewrite !fields_cons, !flat_map_app. f_equal.
      cbn [or_else]. destruct (falsy (Some c)) eqn:Hf; [|reflexivity].
      rewrite Hd. unfold entry_fields.
      destruct (skipped k); [reflexivity|]. cbv zeta.
      destruct c as [|b|n|s|items|es]; try reflexivity; try discriminate Hf.
      destruct s; [reflexivity|discriminate Hf].
    + rewrite !fields_cons, !flat_map_app. f_equal.
      cbn [upsert]. exact IH.
Qed.

Lemma empty_object_no_field (p k : text) :
  entry_fields string_fields p k (VObject []) = [].
Proof. unfold entry_fields. destruct (skipped k); reflexivity. Qed.

Lemma empty_array_no_field (p k : text) :
  entry_fields string_fields p k (VArray []) = [].
Proof. unfold entry_fields. destruct (skipped k); reflexivity. Qed.

(** X16. [addBaby] throws ['Missing required parameters'] exactly when [db],
    [userId] or [shiftId] is missing.  When it reaches [addDoc], the
    document it writes, [babyData] completed with the defaults for
    [reportSheet], [touchTimeLogs] and [eventLogs] and with the two time
    stamps, yields exactly the findings of [babyData] itself: the defaults
    and the time stamps never cause, nor hide, a finding. *)
Theorem addBaby_findings_are_those_of_babyData :
  forall (server_time : value) (db ref_ok : bool)
         (userId shiftId : option value) (babyData : list (text * value)),
    (addBaby server_time db ref_ok userId shiftId babyData
     = inr (HelperError (u "Missing required parameters"))
     <-> negb db || falsy userId || falsy shiftId = true)
    /\ forall doc,
        addBaby server_time db ref_ok userId shiftId babyData = inl doc ->
        forall path st,
          fst (scanForPHI doc path st)
          = fst (scanForPHI (VObject babyData) path st).
Proof.
  intros server_time db ref_ok userId shiftId babyData. unfold addBaby.
  destruct (negb db || falsy userId || falsy shiftId).
  - split; [split; reflexivity|]. intros doc H; discriminate H.
  - split; [split; [destruct (negb ref_ok)|]; discriminate|].
    destruct (negb ref_ok); intros doc H; [discriminate H|].
    injection H as <-.
    intros path st. rewrite !scanForPHI_fst. unfold babyWithDefaults.
    rewrite !fields_set_prop_skipped by reflexivity.
    set (es1 := set_prop (u "reportSheet")
                  (or_else (get_prop (u "reportSheet") babyData) (VObject []))
                  babyData).
    assert (H1 : get_prop (u "touchTimeLogs") babyData
                 = get_prop (u "touchTimeLogs") es1).
    { symmetry. apply get_prop_upsert_other. discriminate. }
    rewrite H1.
    set (es2 := set_prop (u "touchTimeLogs")
                  (or_else (get_prop (u "touchTimeLogs") es1) (VArray []))
                  es1).
    assert (H2 : get_prop (u "eventLogs") babyData
                 = get_prop (u "eventLogs") es2).
    { symmetry. unfold es2, es1, set_prop.
      rewrite !get_prop_upsert_other by discriminate. reflexivity. }
    rewrite H2.
    rewrite (reports_set_default (u "eventLogs") (VArray []) path
               empty_array_no_field).
    unfold es2.
    rewrite (reports_set_default (u "touchTimeLogs") (VArray []) path
               empty_array_no_field).
    apply (reports_set_default (u "reportSheet") (VObject []) path
             empty_object_no_field).
Qed.

(** The statement for a baby given with a nickname and an empty report
    sheet. *)
Lemma addBaby_findings_are_those_of_babyData_witness :
  fst (scanForPHI
         (babyWithDefaults (VNumber 0)
            [(u "internalID_Nickname", VString (u "Jane Smith"));
             (u "reportSheet", VString [])])
         [] initial_patterns)
  = fst (scanForPHI
           (VObject [(u "internalID_Nickname", VString (u "Jane Smith"));
                     (u "reportSheet", VString [])])
           [] initial_patterns).
Proof.
  apply (proj2 (addBaby_findings_are_those_of_babyData (VNumber 0) true true
                  (Some (VString (u "nurse1"))) (Some (VString (u "s1")))
                  [(u "internalID_Nickname", VString (u "Jane Smith"));
                   (u "reportSheet", VString [])])
           (babyWithDefaults (VNumber 0)
              [(u "internalID_Nickname", VString (u "Jane Smith"));
               (u "reportSheet", VString [])])).
  reflexivity.
Defined.

Lemma findings_of_object (entries : list (text * value)) :
  findings_of (VObject entries)
  = flat_map report (string_fields (VObject entries) []).
Proof. unfold findings_of. apply scanForPHI_fst. Qed.

Lemma findings_set_prop_length (key : text) (v : value)
    (entries : list (text * value)) :
  length (findings_of (VObject (set_prop key v entries)))
  = length (findings_of (VObject [(key, v)]))
    + length (findings_of (VObject (remove_prop key entries))).
Proof.
  rewrite !findings_of_object. unfold set_prop.
  induction entries as [|[k c] entries IH]; cbn [upsert remove_prop].
  - rewrite !fields_cons, !flat_map_app, !length_app.
    cbn [string_fields flat_map length]. lia.
  - destruct (text_eqb k key) eqn:E.
    + apply text_eqb_eq in E. subst k.
      rewrite !fields_cons, !flat_map_app, !length_app.
      cbn [string_fields flat_map length]. lia.
    + rewrite (fields_cons k c (upsert _ _ _ _)), (fields_cons k c (remove_prop _ _)).
      rewrite !flat_map_app, !length_app, IH. lia.
Qed.

(** X17. [setReportSheet] throws ['Missing required parameters'] exactly
    when [db], [userId], [shiftId] or [babyId] is missing.  When it reaches
    [updateDoc], the document left by that update on
    a stored baby document has findings exactly when the new report sheet
    has findings under the field [reportSheet] or another field of the
    stored document has: what the replaced report sheet held plays no part,
    and neither does the time stamp. *)
Theorem setReportSheet_findings :
  forall (server_time : value) (db ref_ok : bool)
         (userId shiftId babyId : option value) (reportData : value),
    (setReportSheet server_time db ref_ok userId shiftId babyId reportData
     = inr (HelperError (u "Missing required parameters"))
     <-> negb db || falsy userId || falsy shiftId || falsy babyId = true)
    /\ forall fields stored,
        setReportSheet server_time db ref_ok userId shiftId babyId reportData
        = inl fields ->
        has_findings (VObject (updateDoc_result fields stored))
        = has_findings (VObject [(u "reportSheet", reportData)])
          || has_findings (VObject (remove_prop (u "reportSheet") stored)).
Proof.
  intros server_time db ref_ok userId shiftId babyId reportData.
  unfold setReportSheet.
  destruct (negb db || falsy userId || falsy shiftId || falsy babyId).
  - split; [split; reflexivity|]. intros fields stored H; discriminate H.
  - split; [split; [destruct (negb ref_ok)|]; discriminate|].
    destruct (negb ref_ok); intros fields stored H; [discriminate H|].
    injection H as <-.
    unfold has_findings, updateDoc_result. cbn [fold_left fst snd].
    assert (H : findings_of
                  (VObject (set_prop (u "updatedAt") server_time
                              (set_prop (u "reportSheet") reportData stored)))
                = findings_of
                    (VObject (set_prop (u "reportSheet") reportData stored))).
    { rewrite !findings_of_object, fields_set_prop_skipped by reflexivity.
      reflexivity. }
    rewrite H, findings_set_prop_length.
    destruct (length (findings_of (VObject [(u "reportSheet", reportData)])));
      destruct (length (findings_of
                          (VObject (remove_prop (u "reportSheet") stored))));
      reflexivity.
Qed.

(** The statement for a clean report sheet written over a tainted one, in a
    document with a tainted nickname. *)
Lemma setReportSheet_findings_witness :
  has_findings
    (VObject
       (updateDoc_result
          [(u "reportSheet", VObject [(u "labsOrdered", VString (u "CBC"))]);
           (u "updatedAt", VNumber 1)]
          [(u "internalID_Nickname", VString (u "Jane Smith"));
           (u "reportSheet",
            VObject [(u "maternalHistory", VString (u "555-123-4567"))])]))
  = has_findings
      (VObject [(u "reportSheet",
                 VObject [(u "labsOrdered", VString (u "CBC"))])])
    || has_findings
         (VObject
            (remove_prop (u "reportSheet")
               [(u "internalID_Nickname", VString (u "Jane Smith"));
                (u "reportSheet",
                 VObject [(u "maternalHistory",
                           VString (u "555-123-4567"))])])).
Proof.
  apply (proj2 (setReportSheet_findings (VNumber 1) true true
                  (Some (VString (u "nurse1"))) (Some (VString (u "s1")))
                  (Some (VString (u "b1")))
                  (VObject [(u "labsOrdered", VString (u "CBC"))]))).
  reflexivity.
Defined.
